(** * cfg: the layered configuration store

    A shallow embedding of the key resolution engine of package [cfg]
    (the [Config] type with its [overrides], [config] and [defaults]
    layers and its alias table), followed by the properties of the
    resolution functions [realKey], [find], [searchMap], [Get] and of the
    mutators [Set], [SetDefault] and [registerAlias].

    Conventions of the embedding:
    - a Go [string] is a [string] of bytes; [strings.ToLower] is modelled
      on the ASCII letters (bytes outside [A-Z] are kept);
    - a Go [map[string]T] is a [gmap string T];
    - an [interface{}] is a [Value], a tagged union with one constructor
      per dynamic type that the type switches of the package name;
    - methods on [*Config] run in a state-and-failure monad [M] over the
      [Config] record, so that a method that writes a field is visibly
      different from one that only reads;
    - the self-recursive methods [realKey] and [find] take a [fuel]
      argument that bounds the depth of the call stack; [OutOfFuel] at
      every fuel is a call that never returns;
    - package [cast] is an external collaborator and is taken as a
      parameter ([Cast]); logging through [jww] has no effect on the
      store and is left out. *)

From stdpp Require Import gmap strings list fin_maps.
From Stdlib Require Import ZArith NArith Ascii String Bool Lia.

Set Warnings "-register-all".
Local Open Scope string_scope.

(** ** Strings: [strings.ToLower], [strings.Contains], [strings.Split] *)

Definition lower_ascii (a : ascii) : ascii :=
  let n := N_of_ascii a in
  if ((65 <=? n) && (n <=? 90))%N then ascii_of_N (n + 32) else a.

Fixpoint ToLower (s : string) : string :=
  match s with
  | EmptyString => EmptyString
  | String a r => String (lower_ascii a) (ToLower r)
  end.

(** [Contains s substr]: [substr] occurs somewhere in [s]; the empty
    string occurs in every string. *)
Fixpoint Contains (s substr : string) : bool :=
  String.prefix substr s ||
  match s with
  | EmptyString => false
  | String _ r => Contains r substr
  end.

(** [strings.Split s ""] cuts after every character. *)
Fixpoint explode (s : string) : list string :=
  match s with
  | EmptyString => []
  | String a r => String a EmptyString :: explode r
  end.

(** Left-to-right scan for non-overlapping occurrences of a non-empty
    separator. [cur] is the piece being collected and [skip] the number
    of bytes of an already matched separator still to be dropped. *)
Fixpoint splitFrom (sep : string) (skip : nat) (cur s : string) : list string :=
  match s with
  | EmptyString => [cur]
  | String a r =>
      match skip with
      | S k => splitFrom sep k cur r
      | O =>
          if String.prefix sep s
          then cur :: splitFrom sep (String.length sep - 1) EmptyString r
          else splitFrom sep 0 (cur +:+ String a EmptyString) r
      end
  end.

Definition Split (s sep : string) : list string :=
  match sep with
  | EmptyString => explode s
  | _ => splitFrom sep 0 EmptyString s
  end.

(** ** Dynamic values *)

(** The integer types named by the type switch of [Get]. *)
Inductive IntKind : Type := KInt | KInt8 | KInt16 | KInt32 | KInt64.

Inductive FloatKind : Type := KFloat32 | KFloat64.

(** An [interface{}]. [VNil] is the nil interface. A float carries the
    bit pattern of its value as a float64, a [time.Time] and a
    [time.Duration] a number of nanoseconds. [VOther] stands for a value
    of any dynamic type that no type switch of the package names (a
    [uint], a [[]int], a [map[string]string], ...); its flag records
    whether [reflect] reports the kind [Map] for it. *)
Inductive Value : Type :=
| VNil
| VBool (b : bool)
| VString (s : string)
| VInt (k : IntKind) (z : Z)
| VFloat (k : FloatKind) (bits : Z)
| VTime (t : Z)
| VDuration (d : Z)
| VStringSlice (l : list string)
| VStringMap (m : gmap string Value)
| VIfaceMap (m : list (Value * Value))
| VOther (isMap : bool) (tag : N).

(** [val == nil] *)
Definition is_nil (v : Value) : bool :=
  match v with VNil => true | _ => false end.

(** [reflect.TypeOf(v).Kind() == reflect.Map], for a non-nil [v]. *)
Definition kindIsMap (v : Value) : bool :=
  match v with
  | VStringMap _ | VIfaceMap _ => true
  | VOther isMap _ => isMap
  | _ => false
  end.

(** The functions of package [cast] that the engine calls, with their Go
    result types. *)
Record Cast : Type := {
  ToBool : Value -> bool;
  ToString : Value -> string;
  ToInt : Value -> Z;
  ToFloat64 : Value -> Z;
  ToTime : Value -> Z;
  ToDuration : Value -> Z;
  ToStringSlice : Value -> list string;
  ToStringMap : Value -> gmap string Value
}.

(** What the engine relies on: a conversion to the type the value already
    has gives the value back ([ToInt] on a platform whose [int] has 64
    bits, [ToFloat64] exact on a float32). *)
Record CastLaws (cast : Cast) : Prop := {
  ToBool_bool : forall b, ToBool cast (VBool b) = b;
  ToString_string : forall s, ToString cast (VString s) = s;
  ToInt_int : forall k z, ToInt cast (VInt k z) = z;
  ToFloat64_float : forall k f, ToFloat64 cast (VFloat k f) = f;
  ToTime_time : forall t, ToTime cast (VTime t) = t;
  ToDuration_duration : forall d, ToDuration cast (VDuration d) = d;
  ToStringSlice_slice : forall l, ToStringSlice cast (VStringSlice l) = l;
  ToStringMap_map : forall m, ToStringMap cast (VStringMap m) = m
}.

(** ** The store *)

Record Config : Type := mkConfig {
  keyDelm : string;
  config : gmap string Value;
  defaults : gmap string Value;
  overrides : gmap string Value;
  aliases : gmap string string;
  typeByDefValue : bool
}.

Definition New : Config :=
  {| keyDelm := ".";
     config := ∅;
     defaults := ∅;
     overrides := ∅;
     aliases := ∅;
     typeByDefValue := false |}.

Definition with_config (f : gmap string Value -> gmap string Value) (c : Config) : Config :=
  {| keyDelm := keyDelm c; config := f (config c); defaults := defaults c;
     overrides := overrides c; aliases := aliases c;
     typeByDefValue := typeByDefValue c |}.

Definition with_defaults (f : gmap string Value -> gmap string Value) (c : Config) : Config :=
  {| keyDelm := keyDelm c; config := config c; defaults := f (defaults c);
     overrides := overrides c; aliases := aliases c;
     typeByDefValue := typeByDefValue c |}.

Definition with_overrides (f : gmap string Value -> gmap string Value) (c : Config) : Config :=
  {| keyDelm := keyDelm c; config := config c; defaults := defaults c;
     overrides := f (overrides c); aliases := aliases c;
     typeByDefValue := typeByDefValue c |}.

Definition with_aliases (f : gmap string string -> gmap string string) (c : Config) : Config :=
  {| keyDelm := keyDelm c; config := config c; defaults := defaults c;
     overrides := overrides c; aliases := f (aliases c);
     typeByDefValue := typeByDefValue c |}.

(** ** The monad of methods on [*Config] *)

Inductive Outcome (A : Type) : Type :=
| Done (a : A)
| Panic
| OutOfFuel.

Arguments Done {A} a.
Arguments Panic {A}.
Arguments OutOfFuel {A}.

Definition M (A : Type) : Type := Config -> Outcome (A * Config).

Definition ret {A : Type} (a : A) : M A := fun c => Done (a, c).

Definition bind {A B : Type} (m : M A) (k : A -> M B) : M B :=
  fun c =>
    match m c with
    | Done (a, c') => k a c'
    | Panic => Panic
    | OutOfFuel => OutOfFuel
    end.

Notation "x <- m ;; k" := (bind m (fun x => k))
  (at level 90, m at level 80, right associativity).
Notation "m ;;; k" := (bind m (fun _ => k))
  (at level 90, right associativity).

(** Read a field (or anything computed from the fields). *)
Definition gets {A : Type} (f : Config -> A) : M A := fun c => Done (f c, c).

(** Write the fields. *)
Definition modify (f : Config -> Config) : M unit := fun c => Done (tt, f c).

Definition panic {A : Type} : M A := fun _ => Panic.

Definition timeout {A : Type} : M A := fun _ => OutOfFuel.

(** [p[0]]: an index out of range panics. *)
Definition index0 (p : list string) : M string :=
  match p with
  | [] => panic
  | x :: _ => ret x
  end.

(** ** The engine *)

Section Engine.

Variable cast : Cast.

(** [searchMap]: descend into nested maps along the path [p]. *)
Fixpoint searchMap (s : gmap string Value) (p : list string) : M Value :=
  match p with
  | [] => ret (VStringMap s)
  | p0 :: rest =>
      match s !! p0 with
      | Some next =>
          match next with
          | VIfaceMap _ => searchMap (ToStringMap cast next) rest
          | VStringMap m => searchMap m rest
          | _ => ret next
          end
      | None => ret VNil
      end
  end.

(** [realKey]: follow the alias table from [key]. *)
Fixpoint realKey (fuel : nat) (key : string) : M string :=
  match fuel with
  | O => timeout
  | S fuel' =>
      a <- gets (fun c => aliases c !! key) ;;
      match a with
      | Some newkey => realKey fuel' newkey
      | None => ret key
      end
  end.

(** [find]: overrides, then config, then the dotted-path descent, then
    defaults. *)
Fixpoint find (fuel : nat) (key : string) : M Value :=
  match fuel with
  | O => timeout
  | S fuel' =>
      key <- realKey fuel key ;;
      o <- gets (fun c => overrides c !! key) ;;
      match o with
      | Some val => ret val
      | None =>
          f <- gets (fun c => config c !! key) ;;
          match f with
          | Some val => ret val
          | None =>
              let fromDefaults : M Value :=
                d <- gets (fun c => defaults c !! key) ;;
                match d with
                | Some val => ret val
                | None => ret VNil
                end in
              delim <- gets keyDelm ;;
              if Contains key delim then
                let path := Split key delim in
                p0 <- index0 path ;;
                source <- find fuel' p0 ;;
                if negb (is_nil source) && kindIsMap source
                then searchMap (ToStringMap cast source) (tail path)
                else fromDefaults
              else fromDefaults
          end
      end
  end.

(** The type switch at the end of [Get]: the witness [valType] selects
    the conversion applied to [val]. *)
Definition coerce (valType val : Value) : Value :=
  match valType with
  | VBool _ => VBool (ToBool cast val)
  | VString _ => VString (ToString cast val)
  | VInt _ _ => VInt KInt (ToInt cast val)
  | VFloat _ _ => VFloat KFloat64 (ToFloat64 cast val)
  | VTime _ => VTime (ToTime cast val)
  | VDuration _ => VDuration (ToDuration cast val)
  | VStringSlice _ => VStringSlice (ToStringSlice cast val)
  | _ => val
  end.

(** The witness: the value itself unless [typeByDefValue] is on and
    [defaults] has an entry under the lower-cased key. *)
Definition witness (lcaseKey : string) (val : Value) : M Value :=
  byDef <- gets typeByDefValue ;;
  if negb byDef then ret val
  else
    d <- gets (fun c => defaults c !! lcaseKey) ;;
    match d with
    | Some defVal => ret defVal
    | None => ret val
    end.

(** [Get]: [find] on the lower-cased key; on nil, a second attempt
    through the first segment of the key as written; then the type
    switch. *)
Definition Get (fuel : nat) (key : string) : M Value :=
  delim <- gets keyDelm ;;
  let p := Split key delim in
  let lcaseKey := ToLower key in
  val <- find fuel lcaseKey ;;
  val <- (if is_nil val then
            p0 <- index0 p ;;
            source <- find fuel p0 ;;
            if negb (is_nil source) && kindIsMap source
            then searchMap (ToStringMap cast source) (tail p)
            else ret val
          else ret val) ;;
  if is_nil val then ret VNil
  else
    valType <- witness lcaseKey val ;;
    ret (coerce valType val).

Definition IsSet (fuel : nat) (key : string) : M bool :=
  t <- Get fuel key ;;
  ret (negb (is_nil t)).

(** [InConfig]: the key goes to [realKey] as written. *)
Definition InConfig (fuel : nat) (key : string) : M bool :=
  key <- realKey fuel key ;;
  f <- gets (fun c => config c !! key) ;;
  match f with
  | Some _ => ret true
  | None => ret false
  end.

Definition SetDefault (fuel : nat) (key : string) (value : Value) : M unit :=
  key <- realKey fuel (ToLower key) ;;
  modify (with_defaults (fun m => <[key := value]> m)).

(** [Set] (the name is reserved here). *)
Definition Set_ (fuel : nat) (key : string) (value : Value) : M unit :=
  key <- realKey fuel (ToLower key) ;;
  modify (with_overrides (fun m => <[key := value]> m)).

(** One of the three migrations of [registerAlias]: an entry under
    [alias] is deleted and stored again under [key]. *)
Definition migrate (layer : Config -> gmap string Value)
    (upd : (gmap string Value -> gmap string Value) -> Config -> Config)
    (alias key : string) : M unit :=
  e <- gets (fun c => layer c !! alias) ;;
  match e with
  | Some val =>
      modify (upd (fun m => delete alias m)) ;;;
      modify (upd (fun m => <[key := val]> m))
  | None => ret tt
  end.

Definition registerAlias (fuel : nat) (alias key : string) : M unit :=
  let alias := ToLower alias in
  ok <- (if negb (String.eqb alias key)
         then rk <- realKey fuel key ;; ret (negb (String.eqb alias rk))
         else ret false) ;;
  if ok : bool then
    e <- gets (fun c => aliases c !! alias) ;;
    match e with
    | None =>
        migrate config with_config alias key ;;;
        migrate defaults with_defaults alias key ;;;
        migrate overrides with_overrides alias key ;;;
        modify (with_aliases (fun m => <[alias := key]> m))
    | Some _ => ret tt
    end
  else
    (* the warning prints c.realKey(key) *)
    realKey fuel key ;;; ret tt.

Definition RegisterAlias (fuel : nat) (alias key : string) : M unit :=
  registerAlias fuel alias (ToLower key).

(** [ReadInConfig], as far as the store is concerned. [loaded] is [None]
    when the configuration type is unsupported or the file cannot be
    read, which returns before the store is touched; it is [Some m] when
    the decoder has filled the fresh map with [m]. *)
Definition ReadInConfig (loaded : option (gmap string Value)) : M unit :=
  match loaded with
  | None => ret tt
  | Some m => modify (with_config (fun _ => m))
  end.

(** [AllKeys]: the keys of the three layers, collected in a set. Go
    ranges over the set in no particular order; here the order is that
    of [elements]. *)
Definition AllKeys : M (list string) :=
  m <- gets (fun c => dom (defaults c) : gset string) ;;
  m <- gets (fun c => m ∪ dom (config c)) ;;
  m <- gets (fun c => m ∪ dom (overrides c)) ;;
  ret (elements m).

(** The loop of [AllSettings]: [m[x] = c.Get(x)] for each key. *)
Fixpoint allSettingsLoop (fuel : nat) (keys : list string)
    (m : gmap string Value) : M (gmap string Value) :=
  match keys with
  | [] => ret m
  | x :: rest =>
      v <- Get fuel x ;;
      allSettingsLoop fuel rest (<[x := v]> m)
  end.

Definition AllSettings (fuel : nat) : M (gmap string Value) :=
  keys <- AllKeys ;;
  allSettingsLoop fuel keys ∅.

End Engine.

(** ** A reference collaborator

    An implementation of [Cast] on which the engine can be run: a
    conversion to the type the value already has is the identity, any
    other conversion gives the zero value of the target type. *)

Definition refToString (v : Value) : string :=
  match v with VString s => s | _ => "" end.

Definition refCast : Cast :=
  {| ToBool := fun v => match v with VBool b => b | _ => false end;
     ToString := refToString;
     ToInt := fun v => match v with VInt _ z => z | _ => 0%Z end;
     ToFloat64 := fun v => match v with VFloat _ f => f | _ => 0%Z end;
     ToTime := fun v => match v with VTime t => t | _ => 0%Z end;
     ToDuration := fun v => match v with VDuration d => d | _ => 0%Z end;
     ToStringSlice := fun v => match v with VStringSlice l => l | _ => [] end;
     ToStringMap := fun v =>
       match v with
       | VStringMap m => m
       | VIfaceMap l =>
           foldr (fun kv m => <[refToString kv.1 := kv.2]> m) ∅ l
       | _ => ∅
       end |}.

(** ** Vocabulary of the statements *)

(** A computation [preserves] the store when every run that returns
    leaves the record as it found it. *)
Definition preserves {A : Type} (m : M A) : Prop :=
  forall c, match m c with Done (_, c') => c' = c | _ => True end.

(** The alias chain as a function of the table: what [realKey] returns
    within [fuel] calls. *)
Fixpoint resolve (fuel : nat) (a : gmap string string) (key : string) : option string :=
  match fuel with
  | O => None
  | S fuel' =>
      match a !! key with
      | Some newkey => resolve fuel' a newkey
      | None => Some key
      end
  end.

(** The witness of [Get] as a function of the store. *)
Definition valTypeOf (c : Config) (lcaseKey : string) (val : Value) : Value :=
  if negb (typeByDefValue c) then val
  else match defaults c !! lcaseKey with
       | Some defVal => defVal
       | None => val
       end.

(** The values that the type switch of [Get] hands back with the dynamic
    type they came in with: everything but the integers and floats of a
    width other than [int] and [float64]. *)
Definition native (v : Value) : bool :=
  match v with
  | VInt KInt _ => true
  | VInt _ _ => false
  | VFloat KFloat64 _ => true
  | VFloat _ _ => false
  | _ => true
  end.

(** The two map types that the type switch of [searchMap] descends into. *)
Definition isMapping (v : Value) : bool :=
  match v with
  | VStringMap _ | VIfaceMap _ => true
  | _ => false
  end.

(** What [registerAlias] does to one layer when it accepts: the entry
    under [alias], if there is one, is taken out and stored under [key]. *)
Definition migrated (alias key : string) (m : gmap string Value) : gmap string Value :=
  match m !! alias with
  | Some val => <[key := val]> (delete alias m)
  | None => m
  end.

(** The store after an accepted registration of [alias] for [key]. *)
Definition aliased (alias key : string) (c : Config) : Config :=
  {| keyDelm := keyDelm c;
     config := migrated alias key (config c);
     defaults := migrated alias key (defaults c);
     overrides := migrated alias key (overrides c);
     aliases := <[alias := key]> (aliases c);
     typeByDefValue := typeByDefValue c |}.

(** The stores that the exported operations build from [New]. *)
Inductive reachable : Config -> Prop :=
| reach_New : reachable New
| reach_Set c n k v c' :
    reachable c -> Set_ n k v c = Done (tt, c') -> reachable c'
| reach_SetDefault c n k v c' :
    reachable c -> SetDefault n k v c = Done (tt, c') -> reachable c'
| reach_RegisterAlias c n a k c' :
    reachable c -> RegisterAlias n a k c = Done (tt, c') -> reachable c'
| reach_ReadInConfig c loaded c' :
    reachable c -> ReadInConfig loaded c = Done (tt, c') -> reachable c'.

(** An alias table is well founded when one bound on the length of the
    chains serves every key. *)
Definition alias_wf (a : gmap string string) : Prop :=
  exists N, forall k, is_Some (resolve N a k).

(** No alias stands for a key that holds the delimiter. *)
Definition plain_aliases (c : Config) : Prop :=
  forall a t, aliases c !! a = Some t -> Contains t (keyDelm c) = false.

(** What [Get] makes of a value [v] that [find] returned for the
    lower-cased key [lk]. *)
Definition gotten (cast : Cast) (c : Config) (lk : string) (v : Value) : Value :=
  if is_nil v then VNil else coerce cast (valTypeOf c lk v) v.

(** ** Stores used as examples *)

(** A store in which the key ["k"] has an entry in each layer. *)
Definition cLayers : Config :=
  {| keyDelm := ".";
     config := {[ "k" := VString "from config" ]};
     defaults := {[ "k" := VString "from defaults" ]};
     overrides := {[ "k" := VString "from overrides" ]};
     aliases := ∅;
     typeByDefValue := false |}.

(** The store after [Set("a", {"b": 7})], [Set("a.b", nil)],
    [SetDefault("a.b", 1)] and a load of [{"a.b": 2}]. *)
Definition cNilOverride : Config :=
  {| keyDelm := ".";
     config := {[ "a.b" := VInt KInt 2 ]};
     defaults := {[ "a.b" := VInt KInt 1 ]};
     overrides := <[ "a.b" := VNil ]> {[ "a" := VStringMap {[ "b" := VInt KInt 7 ]} ]};
     aliases := ∅;
     typeByDefValue := false |}.

(** The store whose config layer is [{"a": 5}]. *)
Definition cScalar : Config :=
  with_config (fun _ => {[ "a" := VInt KInt 5 ]}) New.

(** The store whose config layer is [{"a": {"b": 5}}]. *)
Definition cNested : Config :=
  with_config (fun _ => {[ "a" := VStringMap {[ "b" := VInt KInt 5 ]} ]}) New.

(** A store with a default under ["port"] and an unrelated config. *)
Definition cDefault : Config :=
  {| keyDelm := ".";
     config := {[ "host" := VString "localhost" ]};
     defaults := {[ "port" := VInt KInt 8080 ]};
     overrides := ∅;
     aliases := ∅;
     typeByDefValue := false |}.

(** The store after [SetDefault("a.b", 1)] and a load of
    [{"a": {"b": 2}}]. *)
Definition cShadow : Config :=
  {| keyDelm := ".";
     config := {[ "a" := VStringMap {[ "b" := VInt KInt 2 ]} ]};
     defaults := {[ "a.b" := VInt KInt 1 ]};
     overrides := ∅;
     aliases := ∅;
     typeByDefValue := false |}.

(** The nested map [{"db": {"port": 5432, "name": "main"}, "debug": true}]. *)
Definition mSettings : gmap string Value :=
  <[ "debug" := VBool true ]>
  {[ "db" := VStringMap (<[ "name" := VString "main" ]>
                         {[ "port" := VInt KInt 5432 ]}) ]}.

(** The store after [RegisterAlias("x", "y")] on a new store. *)
Definition cXY : Config := with_aliases (fun m => <[ "x" := "y" ]> m) New.

(** The store after [RegisterAlias("a", "a.b")] on a new store. *)
Definition cLoop : Config := with_aliases (fun m => <[ "a" := "a.b" ]> m) New.

(** The store after [RegisterAlias("b", "c")], [Set("a", 1)] and
    [RegisterAlias("a", "b")] on a new store. *)
Definition cLost : Config :=
  {| keyDelm := ".";
     config := ∅;
     defaults := ∅;
     overrides := {[ "b" := VInt KInt 1 ]};
     aliases := <[ "a" := "b" ]> {[ "b" := "c" ]};
     typeByDefValue := false |}.

(** The stores after a load of [{"foo": 1}] and of [{"a": {"B": 5}}]. *)
Definition cFoo : Config :=
  with_config (fun _ => {[ "foo" := VInt KInt 1 ]}) New.

Definition cUpper : Config :=
  with_config (fun _ => {[ "a" := VStringMap {[ "B" := VInt KInt 5 ]} ]}) New.

(** The store after [RegisterAlias("new", "old")] on a new store. *)
Definition cNewOld : Config := aliased "new" "old" New.

(** ** More vocabulary *)

(** Every key of [overrides] and of [defaults], every alias and every
    target of an alias is in lower case. *)
Definition lower_keys (c : Config) : Prop :=
  (forall k, is_Some (overrides c !! k) -> ToLower k = k) /\
  (forall k, is_Some (defaults c !! k) -> ToLower k = k) /\
  (forall a t, aliases c !! a = Some t -> ToLower a = a /\ ToLower t = t).

(** One call of an exported mutator. *)
Inductive mutation : Config -> Config -> Prop :=
| mut_Set n k v c c' : Set_ n k v c = Done (tt, c') -> mutation c c'
| mut_SetDefault n k v c c' : SetDefault n k v c = Done (tt, c') -> mutation c c'
| mut_RegisterAlias n a k c c' :
    RegisterAlias n a k c = Done (tt, c') -> mutation c c'
| mut_ReadInConfig loaded c c' :
    ReadInConfig loaded c = Done (tt, c') -> mutation c c'.

(** A store with a port in each of config and defaults, and a database
    section in config. *)
Definition cServer : Config :=
  {| keyDelm := ".";
     config := <[ "db" := VStringMap {[ "host" := VString "pg" ]} ]>
               {[ "port" := VInt KInt 9090 ]};
     defaults := <[ "db.user" := VString "admin" ]>
                 {[ "port" := VInt KInt 8080 ]};
     overrides := ∅;
     aliases := ∅;
     typeByDefValue := false |}.

(** The store after [Set("Log.Level", "debug")] on a new store. *)
Definition cLogLevel : Config :=
  with_overrides (fun m => <[ "log.level" := VString "debug" ]> m) New.

(** The store after [Set("n", int8(7))] on a new store. *)
Definition cNarrow : Config :=
  with_overrides (fun m => <[ "n" := VInt KInt8 7 ]> m) New.

(** ** The typed accessors

    Each one casts what [Get] returns.  ([GetStringMapString],
    [GetStringMapStringSlice] and [GetSizeInBytes] go through functions
    that are not among those of [Cast] and are left out.) *)

Section Accessors.

Variable cast : Cast.

Definition GetString (fuel : nat) (key : string) : M string :=
  v <- Get cast fuel key ;; ret (ToString cast v).

Definition GetBool (fuel : nat) (key : string) : M bool :=
  v <- Get cast fuel key ;; ret (ToBool cast v).

Definition GetInt (fuel : nat) (key : string) : M Z :=
  v <- Get cast fuel key ;; ret (ToInt cast v).

Definition GetFloat64 (fuel : nat) (key : string) : M Z :=
  v <- Get cast fuel key ;; ret (ToFloat64 cast v).

Definition GetTime (fuel : nat) (key : string) : M Z :=
  v <- Get cast fuel key ;; ret (ToTime cast v).

Definition GetDuration (fuel : nat) (key : string) : M Z :=
  v <- Get cast fuel key ;; ret (ToDuration cast v).

Definition GetStringSlice (fuel : nat) (key : string) : M (list string) :=
  v <- Get cast fuel key ;; ret (ToStringSlice cast v).

Definition GetStringMap (fuel : nat) (key : string) : M (gmap string Value) :=
  v <- Get cast fuel key ;; ret (ToStringMap cast v).

End Accessors.

(** The store after [Set("a", 1)] on a new store. *)
Definition cOverA : Config :=
  with_overrides (fun m => <[ "a" := VInt KInt 1 ]> m) New.

(** The store after [Set("retries", int16(3))] and [Set("name", "svc")]. *)
Definition cTyped : Config :=
  with_overrides (fun m => <[ "name" := VString "svc" ]>
                           (<[ "retries" := VInt KInt16 3 ]> m)) New.

(** What [AllSettings] returns on [cServer]. *)
Definition mServerSettings : gmap string Value :=
  <[ "db.user" := VNil ]>
  (<[ "db" := VStringMap {[ "host" := VString "pg" ]} ]>
   {[ "port" := VInt KInt 9090 ]}).

(** ** Locating and loading the configuration file

    The fields of [Config] that name and locate the file, which the
    engine never reads, are kept in a record of their own, together with
    the package variable [SupportedExts].  The file system, package
    [filepath] and the helpers of the package that are defined in another
    file ([exists], [absPathify], [stringInSlice],
    [unmarshallConfigReader]) make up the [World] these methods run in. *)

Module Files.

Inductive Error : Type :=
| UnsupportedConfigError (configType : string)
| ConfigFileNotFoundError (name locations : string)
| OtherError (message : string).

Record World : Type := {
  (* exists(path), the boolean it returns *)
  fileExists : string -> bool;
  (* filepath.Join(dir, file) *)
  Join : string -> string -> string;
  absPathify : string -> string;
  stringInSlice : string -> list string -> bool;
  (* ioutil.ReadFile(path) *)
  ReadFile : string -> Error + string;
  (* unmarshallConfigReader(in, v, configType): the entries it puts in
     the empty map [v], and the error it returns *)
  unmarshallConfigReader : string -> string -> gmap string Value * option Error
}.

Record Locator : Type := {
  configName : string;
  configFile : string;
  configType : string;
  configPaths : list string;
  SupportedExts : list string
}.

(** The fields as [New] (and [Reset]) leave them. *)
Definition NewLocator : Locator :=
  {| configName := "config";
     configFile := "";
     configType := "";
     configPaths := [];
     SupportedExts := ["toml"; "yaml"; "yml"] |}.

Definition with_configFile (s : string) (l : Locator) : Locator :=
  {| configName := configName l; configFile := s; configType := configType l;
     configPaths := configPaths l; SupportedExts := SupportedExts l |}.

Definition with_configName (s : string) (l : Locator) : Locator :=
  {| configName := s; configFile := configFile l; configType := configType l;
     configPaths := configPaths l; SupportedExts := SupportedExts l |}.

Definition with_configType (s : string) (l : Locator) : Locator :=
  {| configName := configName l; configFile := configFile l; configType := s;
     configPaths := configPaths l; SupportedExts := SupportedExts l |}.

Definition with_configPaths (p : list string) (l : Locator) : Locator :=
  {| configName := configName l; configFile := configFile l;
     configType := configType l; configPaths := p;
     SupportedExts := SupportedExts l |}.

(** [s != ""] *)
Definition nonEmpty (s : string) : bool :=
  match s with EmptyString => false | _ => true end.

Definition SetConfigFile (s : string) (l : Locator) : Locator :=
  if nonEmpty s then with_configFile s l else l.

Definition SetConfigName (s : string) (l : Locator) : Locator :=
  if nonEmpty s then with_configName s l else l.

Definition SetConfigType (s : string) (l : Locator) : Locator :=
  if nonEmpty s then with_configType s l else l.

Definition ConfigFileUsed (l : Locator) : string := configFile l.

(** [filepath.Ext]: from the end of the path back to the last ['.'],
    giving up at a ['/'] (the path separator, on Unix).  [suffix] is the
    part already passed. *)
Fixpoint extScan (backwards : list ascii) (suffix : string) : string :=
  match backwards with
  | [] => ""
  | a :: before =>
      if Ascii.eqb a "/" then ""
      else if Ascii.eqb a "." then String a suffix
      else extScan before (String a suffix)
  end.

Definition Ext (path : string) : string :=
  extScan (rev (list_ascii_of_string path)) "".

(** [fmt.Sprintf("%s", paths)] for a slice of strings: ["[a b c]"]. *)
Fixpoint spaced (paths : list string) : string :=
  match paths with
  | [] => ""
  | [p] => p
  | p :: rest => p +:+ " " +:+ spaced rest
  end.

Definition formatPaths (paths : list string) : string :=
  "[" +:+ spaced paths +:+ "]".

Section InWorld.

Variable w : World.

(** The loop of [searchInPath] over the extensions still to try. *)
Fixpoint searchExts (name dir : string) (exts : list string) : string :=
  match exts with
  | [] => ""
  | ext :: rest =>
      if fileExists w (Join w dir (name +:+ "." +:+ ext))
      then Join w dir (name +:+ "." +:+ ext)
      else searchExts name dir rest
  end.

Definition searchInPath (l : Locator) (dir : string) : string :=
  searchExts (configName l) dir (SupportedExts l).

(** The loop of [findConfigFile] over the paths still to try. *)
Fixpoint searchPaths (l : Locator) (paths : list string) : option string :=
  match paths with
  | [] => None
  | cp :: rest =>
      let file := searchInPath l cp in
      if nonEmpty file then Some file else searchPaths l rest
  end.

Definition findConfigFile (l : Locator) : string + Error :=
  match searchPaths l (configPaths l) with
  | Some file => inl file
  | None =>
      inr (ConfigFileNotFoundError (configName l) (formatPaths (configPaths l)))
  end.

(** [getConfigFile] stores what it finds and calls itself. *)
Fixpoint getConfigFile (fuel : nat) (l : Locator) : Outcome (string * Locator) :=
  match fuel with
  | O => OutOfFuel
  | S fuel' =>
      if nonEmpty (configFile l) then Done (configFile l, l)
      else
        match findConfigFile l with
        | inr _ => Done ("", l)
        | inl cf => getConfigFile fuel' (with_configFile cf l)
        end
  end.

Definition getConfigType (fuel : nat) (l : Locator) : Outcome (string * Locator) :=
  if nonEmpty (configType l) then Done (configType l, l)
  else
    match getConfigFile fuel l with
    | Done (cf, l') =>
        let ext := Ext cf in
        if (1 <? String.length ext)%nat
        then Done (match ext with String _ r => r | EmptyString => "" end, l')
        else Done ("", l')
    | Panic => Panic
    | OutOfFuel => OutOfFuel
    end.

Definition AddConfigPath (s : string) (l : Locator) : Locator :=
  if nonEmpty s then
    let inPath := absPathify w s in
    if negb (stringInSlice w inPath (configPaths l))
    then with_configPaths (configPaths l ++ [inPath]) l
    else l
  else l.

(** [ReadInConfig]: the error it returns, if any, and what it leaves of
    the locating fields and of the store. *)
Definition ReadInConfig (fuel : nat) (l : Locator) (c : Config)
    : Outcome (option Error * Locator * Config) :=
  match getConfigType fuel l with
  | Done (t, l1) =>
      if negb (stringInSlice w t (SupportedExts l1)) then
        match getConfigType fuel l1 with
        | Done (t', l2) => Done (Some (UnsupportedConfigError t'), l2, c)
        | Panic => Panic
        | OutOfFuel => OutOfFuel
        end
      else
        match getConfigFile fuel l1 with
        | Done (f, l2) =>
            match ReadFile w f with
            | inl err => Done (Some err, l2, c)
            | inr file =>
                (* c.config = make(map[string]interface{}) *)
                let c1 := with_config (fun _ => ∅) c in
                match getConfigType fuel l2 with
                | Done (t2, l3) =>
                    let (entries, err) := unmarshallConfigReader w file t2 in
                    Done (err, l3, with_config (fun _ => entries) c1)
                | Panic => Panic
                | OutOfFuel => OutOfFuel
                end
            end
        | Panic => Panic
        | OutOfFuel => OutOfFuel
        end
  | Panic => Panic
  | OutOfFuel => OutOfFuel
  end.

End InWorld.

End Files.

(** A world with two configuration files on disk. *)
Definition onDisk (path : string) : bool :=
  String.eqb path "/etc/app/config.yaml" || String.eqb path "/home/u/config.yml"
  || String.eqb path "/home/u/config.toml".

Definition wDisk : Files.World :=
  {| Files.fileExists := onDisk;
     Files.Join := fun dir file => dir +:+ "/" +:+ file;
     Files.absPathify := fun s => s;
     Files.stringInSlice := fun x l => bool_decide (x ∈ l);
     Files.ReadFile := fun path =>
       if onDisk path then inr "port = 9090" else inl (Files.OtherError "no such file");
     Files.unmarshallConfigReader := fun _ _ =>
       ({[ "port" := VInt KInt 9090 ]}, None) |}.

(** The same machine after the files have been removed. *)
Definition wEmptyDisk : Files.World :=
  {| Files.fileExists := fun _ => false;
     Files.Join := fun dir file => dir +:+ "/" +:+ file;
     Files.absPathify := fun s => s;
     Files.stringInSlice := fun x l => bool_decide (x ∈ l);
     Files.ReadFile := fun _ => inl (Files.OtherError "no such file");
     Files.unmarshallConfigReader := fun _ _ => (∅, None) |}.

(** The locating fields after [AddConfigPath("/opt/app")],
    [AddConfigPath("/home/u")] and [AddConfigPath("/etc/app")]. *)
Definition lThreePaths : Files.Locator :=
  Files.with_configPaths ["/opt/app"; "/home/u"; "/etc/app"] Files.NewLocator.

(** An extension proper: no ['.'] and no ['/'] in it. *)
Definition plainExt (e : string) : bool :=
  forallb (fun a => negb (Ascii.eqb a "/") && negb (Ascii.eqb a "."))
    (list_ascii_of_string e).

(** A path without any ['.']. *)
Definition noDot (path : string) : bool :=
  forallb (fun a => negb (Ascii.eqb a ".")) (list_ascii_of_string path).


(** * Properties *)

Lemma refCast_laws : CastLaws refCast.
Proof. by split. Qed.

(** ** Reasoning about [M] *)

Lemma bind_Done {A B : Type} (m : M A) (k : A -> M B) c a c' :
  m c = Done (a, c') -> bind m k c = k a c'.
Proof. intros H. unfold bind. by rewrite H. Qed.

Lemma bind_inv {A B : Type} (m : M A) (k : A -> M B) c r :
  bind m k c = Done r -> exists a c', m c = Done (a, c') /\ k a c' = Done r.
Proof.
  unfold bind. destruct (m c) as [[a c']| |]; [|done|done].
  intros H. by exists a, c'.
Qed.

Lemma bind_gets {A B : Type} (f : Config -> A) (k : A -> M B) c :
  bind (gets f) k c = k (f c) c.
Proof. reflexivity. Qed.

Lemma bind_ret {A B : Type} (a : A) (k : A -> M B) c :
  bind (ret a) k c = k a c.
Proof. reflexivity. Qed.

Lemma preserves_Done {A : Type} (m : M A) c a c' :
  preserves m -> m c = Done (a, c') -> c' = c.
Proof. intros Hm H. specialize (Hm c). by rewrite H in Hm. Qed.

Lemma preserves_ret {A : Type} (a : A) : preserves (ret a).
Proof. by intros c. Qed.

Lemma preserves_gets {A : Type} (f : Config -> A) : preserves (gets f).
Proof. by intros c. Qed.

Lemma preserves_panic {A : Type} : preserves (@panic A).
Proof. by intros c. Qed.

Lemma preserves_timeout {A : Type} : preserves (@timeout A).
Proof. by intros c. Qed.

Lemma preserves_bind {A B : Type} (m : M A) (k : A -> M B) :
  preserves m -> (forall a, preserves (k a)) -> preserves (bind m k).
Proof.
  intros Hm Hk c. unfold bind.
  specialize (Hm c). destruct (m c) as [[a c']| |]; [|done|done].
  subst c'. apply Hk.
Qed.

Lemma preserves_index0 p : preserves (index0 p).
Proof. destruct p; [apply preserves_panic | apply preserves_ret]. Qed.

Create HintDb frame.
#[export] Hint Resolve preserves_ret preserves_gets preserves_panic
  preserves_timeout preserves_index0 : frame.

Ltac frame_step :=
  match goal with
  | |- preserves (let _ := _ in _) => cbv zeta
  | |- preserves (bind _ _) => apply preserves_bind; [|intros ?]
  | |- preserves (match ?x with _ => _ end) => destruct x
  | |- preserves (if ?b then _ else _) => destruct b
  | |- preserves _ => solve [auto with frame]
  end.

(** ** The alias chain as a function of the table *)

Section EngineFacts.

Variable cast : Cast.

Lemma realKey_resolve fuel key c :
  realKey fuel key c =
  match resolve fuel (aliases c) key with
  | Some r => Done (r, c)
  | None => OutOfFuel
  end.
Proof.
  revert key. induction fuel as [|fuel IH]; intros key; [done|].
  simpl. rewrite bind_gets. destruct (aliases c !! key); [apply IH|done].
Qed.

Lemma realKey_Done fuel key c r c' :
  realKey fuel key c = Done (r, c') <->
  resolve fuel (aliases c) key = Some r /\ c' = c.
Proof.
  rewrite realKey_resolve. destruct (resolve _ _ _); split.
  - by intros [= -> ->].
  - by intros [[= ->] ->].
  - done.
  - by intros [? _].
Qed.

Lemma resolve_mono n m a key r :
  n <= m -> resolve n a key = Some r -> resolve m a key = Some r.
Proof.
  revert m key. induction n as [|n IH]; intros m key Hle; [done|].
  destruct m as [|m]; [lia|]. simpl.
  destruct (a !! key); [apply IH; lia|done].
Qed.

Lemma resolve_fixed n a key r :
  resolve n a key = Some r -> a !! r = None.
Proof.
  revert key. induction n as [|n IH]; intros key; [done|]. simpl.
  destruct (a !! key) eqn:E; [apply IH|]. by intros [= <-].
Qed.

Lemma resolve_not_alias n a key :
  a !! key = None -> resolve (S n) a key = Some key.
Proof. intros H. simpl. by rewrite H. Qed.

Lemma realKey_mono n m key c r c' :
  n <= m -> realKey n key c = Done (r, c') -> realKey m key c = Done (r, c').
Proof.
  intros Hle. rewrite !realKey_Done. intros [H ->].
  eauto using resolve_mono.
Qed.

Lemma preserves_realKey fuel key : preserves (realKey fuel key).
Proof.
  intros c. rewrite realKey_resolve. by destruct (resolve _ _ _).
Qed.

Lemma preserves_searchMap s p : preserves (searchMap cast s p).
Proof.
  revert s. induction p as [|p0 rest IH]; intros s; simpl.
  - apply preserves_ret.
  - destruct (s !! p0) as [next|]; [|apply preserves_ret].
    destruct next; try apply preserves_ret; apply IH.
Qed.

Lemma find_S fuel key :
  find cast (S fuel) key =
  (key <- realKey (S fuel) key ;;
   o <- gets (fun c => overrides c !! key) ;;
   match o with
   | Some val => ret val
   | None =>
       f <- gets (fun c => config c !! key) ;;
       match f with
       | Some val => ret val
       | None =>
           let fromDefaults : M Value :=
             d <- gets (fun c => defaults c !! key) ;;
             match d with
             | Some val => ret val
             | None => ret VNil
             end in
           delim <- gets keyDelm ;;
           if Contains key delim then
             let path := Split key delim in
             p0 <- index0 path ;;
             source <- find cast fuel p0 ;;
             if negb (is_nil source) && kindIsMap source
             then searchMap cast (ToStringMap cast source) (tail path)
             else fromDefaults
           else fromDefaults
       end
   end).
Proof. reflexivity. Qed.

Lemma preserves_find fuel key : preserves (find cast fuel key).
Proof.
  revert key. induction fuel as [|fuel IH]; intros key.
  - apply preserves_timeout.
  - rewrite find_S.
    apply preserves_bind; [apply preserves_realKey|intros ck].
    repeat frame_step; auto using preserves_searchMap.
Qed.

Lemma preserves_witness lk val : preserves (witness lk val).
Proof. unfold witness. repeat frame_step. Qed.

Lemma preserves_Get fuel key : preserves (Get cast fuel key).
Proof.
  unfold Get. repeat frame_step;
    auto using preserves_find, preserves_searchMap, preserves_witness.
Qed.

Lemma preserves_IsSet fuel key : preserves (IsSet cast fuel key).
Proof. unfold IsSet. repeat frame_step. apply preserves_Get. Qed.

Lemma preserves_InConfig fuel key : preserves (InConfig fuel key).
Proof. unfold InConfig. repeat frame_step. apply preserves_realKey. Qed.

Lemma preserves_AllKeys : preserves AllKeys.
Proof. unfold AllKeys. repeat frame_step. Qed.

Lemma preserves_allSettingsLoop fuel keys m :
  preserves (allSettingsLoop cast fuel keys m).
Proof.
  revert m. induction keys as [|x rest IH]; intros m; simpl.
  - apply preserves_ret.
  - apply preserves_bind; [apply preserves_Get|intros v; apply IH].
Qed.

Lemma preserves_AllSettings fuel : preserves (AllSettings cast fuel).
Proof.
  unfold AllSettings.
  apply preserves_bind; [apply preserves_AllKeys|intros keys].
  apply preserves_allSettingsLoop.
Qed.

End EngineFacts.

Section Fuel.

Variable cast : Cast.

(** More fuel never changes a result. *)
Lemma find_mono n m key c r :
  n <= m -> find cast n key c = Done r -> find cast m key c = Done r.
Proof.
  revert m key c r. induction n as [|n IH]; intros m key c r Hle H; [done|].
  destruct m as [|m]; [lia|].
  rewrite find_S in H. rewrite find_S.
  apply bind_inv in H as (ck & c1 & Hrk & H).
  assert (Hrk' : realKey (S m) key c = Done (ck, c1))
    by (apply (realKey_mono (S n)); [lia|done]).
  rewrite (bind_Done _ _ _ _ _ Hrk').
  apply realKey_Done in Hrk as [_ ->].
  rewrite bind_gets in H |- *.
  destruct (overrides c !! ck); [done|].
  rewrite bind_gets in H |- *.
  destruct (config c !! ck); [done|].
  cbv zeta in H |- *. rewrite bind_gets in H |- *.
  destruct (Contains ck (keyDelm c)); [|done].
  apply bind_inv in H as (p0 & c2 & Hp0 & H).
  rewrite (bind_Done _ _ _ _ _ Hp0).
  apply bind_inv in H as (src & c3 & Hsrc & H).
  apply (IH m) in Hsrc; [|lia].
  by rewrite (bind_Done _ _ _ _ _ Hsrc).
Qed.

Lemma Get_mono n m key c r :
  n <= m -> Get cast n key c = Done r -> Get cast m key c = Done r.
Proof.
  intros Hle H. unfold Get in *.
  rewrite bind_gets in H |- *. cbv zeta in H |- *.
  apply bind_inv in H as (val & c1 & Hval & H).
  rewrite (bind_Done _ _ _ _ _ (find_mono _ m _ _ _ Hle Hval)).
  destruct (is_nil val); [|done].
  apply bind_inv in H as (val' & c2 & Hval' & H).
  apply bind_inv in Hval' as (p0 & c3 & Hp0 & Hval').
  apply bind_inv in Hval' as (src & c4 & Hsrc & Hval').
  erewrite bind_Done; [exact H|].
  rewrite (bind_Done _ _ _ _ _ Hp0).
  by rewrite (bind_Done _ _ _ _ _ (find_mono _ m _ _ _ Hle Hsrc)).
Qed.

(** Two runs of [Get] that return agree, whatever their fuel. *)
Lemma Get_functional n m key c r r' :
  Get cast n key c = Done r -> Get cast m key c = Done r' -> r = r'.
Proof.
  intros H H'.
  apply (Get_mono n (n `max` m)) in H; [|lia].
  apply (Get_mono m (n `max` m)) in H'; [|lia].
  congruence.
Qed.

Lemma find_functional n m key c r r' :
  find cast n key c = Done r -> find cast m key c = Done r' -> r = r'.
Proof.
  intros H H'.
  apply (find_mono n (n `max` m)) in H; [|lia].
  apply (find_mono m (n `max` m)) in H'; [|lia].
  congruence.
Qed.

End Fuel.

Section GetFacts.

Variable cast : Cast.

Lemma witness_valTypeOf lk val c :
  witness lk val c = Done (valTypeOf c lk val, c).
Proof.
  unfold witness, valTypeOf. rewrite bind_gets.
  destruct (typeByDefValue c); simpl; [|done].
  rewrite bind_gets. by destruct (defaults c !! lk).
Qed.

Lemma coerce_native v :
  CastLaws cast -> native v = true -> coerce cast v v = v.
Proof.
  intros [] Hn. destruct v as [| | |k z|k f| | | | | |]; simpl; try congruence.
  - destruct k; try discriminate. congruence.
  - destruct k; try discriminate. congruence.
Qed.

Lemma is_nil_false v : v <> VNil -> is_nil v = false.
Proof. by destruct v. Qed.

(** Once [find] has produced a non-nil value for the lower-cased key,
    [Get] hands it to the type switch. *)
Lemma Get_of_find n k c v :
  find cast n (ToLower k) c = Done (v, c) ->
  v <> VNil ->
  Get cast n k c = Done (coerce cast (valTypeOf c (ToLower k) v) v, c).
Proof.
  intros Hf Hv. unfold Get. rewrite bind_gets. cbv zeta.
  rewrite (bind_Done _ _ _ _ _ Hf).
  rewrite (is_nil_false _ Hv). rewrite bind_ret.
  rewrite (is_nil_false _ Hv).
  by rewrite (bind_Done _ _ _ _ _ (witness_valTypeOf _ _ _)).
Qed.

Lemma Get_of_find_native n k c v :
  CastLaws cast -> typeByDefValue c = false -> native v = true ->
  find cast n (ToLower k) c = Done (v, c) ->
  v <> VNil ->
  Get cast n k c = Done (v, c).
Proof.
  intros L Hflag Hn Hf Hv. rewrite (Get_of_find _ _ _ _ Hf Hv).
  unfold valTypeOf. rewrite Hflag. simpl. by rewrite coerce_native.
Qed.

(** An exact entry in [overrides] under the canonical key ends [find]. *)
Lemma find_override n key c ck v :
  realKey n key c = Done (ck, c) ->
  overrides c !! ck = Some v ->
  find cast n key c = Done (v, c).
Proof.
  intros Hrk Ho. destruct n as [|n]; [done|].
  rewrite find_S, (bind_Done _ _ _ _ _ Hrk), bind_gets. by rewrite Ho.
Qed.

(** So does, failing that, an exact entry in [config]. *)
Lemma find_config n key c ck v :
  realKey n key c = Done (ck, c) ->
  overrides c !! ck = None ->
  config c !! ck = Some v ->
  find cast n key c = Done (v, c).
Proof.
  intros Hrk Ho Hc. destruct n as [|n]; [done|].
  rewrite find_S, (bind_Done _ _ _ _ _ Hrk), bind_gets, Ho, bind_gets.
  by rewrite Hc.
Qed.

End GetFacts.

(** C1 (as amended).  For every store and every key [k] whose canonical
    lower-case form [ck] has an entry in overrides, in config and in
    defaults at once: [find] returns the overrides entry as it is stored,
    whatever the two other layers hold; when that entry is not nil, [Get]
    returns it through its type switch, and with [typeByDefValue] off and
    a value of a native type that is the entry itself. *)
Theorem Get_override_precedence (cast : Cast) (n : nat) (c : Config)
    (k ck : string) (vo vc vd : Value) :
  realKey n (ToLower k) c = Done (ck, c) ->
  overrides c !! ck = Some vo ->
  config c !! ck = Some vc ->
  defaults c !! ck = Some vd ->
  find cast n (ToLower k) c = Done (vo, c) /\
  (vo <> VNil ->
   Get cast n k c = Done (coerce cast (valTypeOf c (ToLower k) vo) vo, c)) /\
  (vo <> VNil -> CastLaws cast -> typeByDefValue c = false ->
   native vo = true -> Get cast n k c = Done (vo, c)).
Proof.
  intros Hrk Ho _ _.
  pose proof (find_override cast _ _ _ _ _ Hrk Ho) as Hf.
  split; [done|]. split.
  - intros Hv. by apply Get_of_find.
  - intros Hv L Hflag Hn. by apply Get_of_find_native.
Qed.

Lemma Get_override_precedence_witness :
  realKey 1 (ToLower "K") cLayers = Done ("k", cLayers) /\
  overrides cLayers !! "k" = Some (VString "from overrides") /\
  config cLayers !! "k" = Some (VString "from config") /\
  defaults cLayers !! "k" = Some (VString "from defaults") /\
  Get refCast 1 "K" cLayers = Done (VString "from overrides", cLayers).
Proof.
  assert (H1 : realKey 1 (ToLower "K") cLayers = Done ("k", cLayers))
    by reflexivity.
  assert (H2 : overrides cLayers !! "k" = Some (VString "from overrides"))
    by reflexivity.
  assert (H3 : config cLayers !! "k" = Some (VString "from config"))
    by reflexivity.
  assert (H4 : defaults cLayers !! "k" = Some (VString "from defaults"))
    by reflexivity.
  do 4 (split; [assumption|]).
  destruct (Get_override_precedence refCast 1 cLayers "K" "k" _ _ _
              H1 H2 H3 H4) as (_ & _ & H).
  apply H; [discriminate | apply refCast_laws | reflexivity | reflexivity].
Defined.

Lemma cNilOverride_built :
  (Set_ 1 "a" (VStringMap {[ "b" := VInt KInt 7 ]}) ;;;
   Set_ 1 "a.b" VNil ;;;
   SetDefault 1 "a.b" (VInt KInt 1) ;;;
   ReadInConfig (Some {[ "a.b" := VInt KInt 2 ]})) New
  = Done (tt, cNilOverride).
Proof. reflexivity. Qed.

(** C1, as stated, fails: with a nil entry in overrides under ["a.b"] and
    a mapping under ["a"], [Get("a.b")] is the 7 found by descent. *)
Lemma Get_override_precedence_fails :
  ~ (forall (cast : Cast) (c : Config) (k ck : string) (vo vc vd : Value)
            (n : nat),
       CastLaws cast ->
       realKey n (ToLower k) c = Done (ck, c) ->
       overrides c !! ck = Some vo ->
       config c !! ck = Some vc ->
       defaults c !! ck = Some vd ->
       exists m, Get cast m k c = Done (vo, c)).
Proof.
  intros H.
  destruct (H refCast cNilOverride "a.b" "a.b" VNil (VInt KInt 2)
              (VInt KInt 1) 1 refCast_laws eq_refl eq_refl eq_refl eq_refl)
    as [m Hm].
  assert (H7 : Get refCast 1 "a.b" cNilOverride
               = Done (VInt KInt 7, cNilOverride)) by reflexivity.
  pose proof (Get_functional _ _ _ _ _ _ _ Hm H7). discriminate.
Qed.

Section Descent.

Variable cast : Cast.

(** The canonical key is in neither [overrides] nor [config] and holds no
    delimiter: [find] goes straight to [defaults]. *)
Lemma find_defaults_plain n key c ck :
  realKey n key c = Done (ck, c) ->
  overrides c !! ck = None ->
  config c !! ck = None ->
  Contains ck (keyDelm c) = false ->
  find cast n key c = Done (default VNil (defaults c !! ck), c).
Proof.
  intros Hrk Ho Hc Hd. destruct n as [|n]; [done|].
  rewrite find_S, (bind_Done _ _ _ _ _ Hrk), bind_gets, Ho, bind_gets, Hc.
  cbv zeta. rewrite bind_gets, Hd, bind_gets.
  by destruct (defaults c !! ck).
Qed.

(** The first segment resolves to nothing, or to something that is not a
    map: [find] falls through to [defaults]. *)
Lemma find_defaults_dotted n key c ck p0 src :
  realKey n key c = Done (ck, c) ->
  overrides c !! ck = None ->
  config c !! ck = None ->
  head (Split ck (keyDelm c)) = Some p0 ->
  find cast n p0 c = Done (src, c) ->
  negb (is_nil src) && kindIsMap src = false ->
  find cast (S n) key c = Done (default VNil (defaults c !! ck), c).
Proof.
  intros Hrk Ho Hc Hp Hsrc Hk.
  apply (realKey_mono n (S n)) in Hrk; [|lia].
  rewrite find_S, (bind_Done _ _ _ _ _ Hrk), bind_gets, Ho, bind_gets, Hc.
  cbv zeta. rewrite bind_gets.
  destruct (Contains ck (keyDelm c)).
  - destruct (Split ck (keyDelm c)) as [|p0' rest]; [done|].
    injection Hp as ->. simpl index0. rewrite bind_ret.
    rewrite (bind_Done _ _ _ _ _ Hsrc), Hk, bind_gets.
    by destruct (defaults c !! ck).
  - rewrite bind_gets. by destruct (defaults c !! ck).
Qed.

(** The first segment resolves to a map: [find] returns what the descent
    gives, without looking at [defaults]. *)
Lemma find_descend n key c ck p0 src :
  realKey n key c = Done (ck, c) ->
  overrides c !! ck = None ->
  config c !! ck = None ->
  Contains ck (keyDelm c) = true ->
  head (Split ck (keyDelm c)) = Some p0 ->
  find cast n p0 c = Done (src, c) ->
  negb (is_nil src) && kindIsMap src = true ->
  find cast (S n) key c =
  searchMap cast (ToStringMap cast src) (tail (Split ck (keyDelm c))) c.
Proof.
  intros Hrk Ho Hc Hd Hp Hsrc Hk.
  apply (realKey_mono n (S n)) in Hrk; [|lia].
  rewrite find_S, (bind_Done _ _ _ _ _ Hrk), bind_gets, Ho, bind_gets, Hc.
  cbv zeta. rewrite bind_gets, Hd.
  destruct (Split ck (keyDelm c)) as [|p0' rest]; [done|].
  injection Hp as ->. simpl index0. rewrite bind_ret.
  by rewrite (bind_Done _ _ _ _ _ Hsrc), Hk.
Qed.

(** [find] on the lower-cased key gave nil and the first segment of the
    key as written does not resolve to a map: [Get] is nil. *)
Lemma Get_nil_fallback n k c p0 src :
  find cast n (ToLower k) c = Done (VNil, c) ->
  head (Split k (keyDelm c)) = Some p0 ->
  find cast n p0 c = Done (src, c) ->
  negb (is_nil src) && kindIsMap src = false ->
  Get cast n k c = Done (VNil, c).
Proof.
  intros Hf Hp Hsrc Hk. unfold Get. rewrite bind_gets. cbv zeta.
  rewrite (bind_Done _ _ _ _ _ Hf). simpl is_nil.
  destruct (Split k (keyDelm c)) as [|p0' rest]; [done|].
  injection Hp as ->. simpl index0.
  unfold bind at 2. simpl ret at 1.
  unfold bind at 1. unfold bind at 1. unfold ret at 1.
  rewrite Hsrc, Hk. reflexivity.
Qed.

End Descent.

(** C2 (as amended).  With ["a.b.c"] stored nowhere and ["a"] neither an
    alias nor overridden: when the config layer maps ["a"] to a value that
    is not a map (the scalar 5, say), [Get("a.b.c")] is nil, since the
    descent is entered only for a map; when it maps ["a"] to a map in
    which ["b"] is the scalar 5, [Get("a.b.c")] is 5, the segment ["c"]
    being ignored. *)
Theorem Get_scalar_on_path (cast : Cast) (c : Config) (v : Value)
    (m : gmap string Value) :
  keyDelm c = "." ->
  aliases c !! "a.b.c" = None ->
  aliases c !! "a" = None ->
  overrides c !! "a.b.c" = None ->
  config c !! "a.b.c" = None ->
  defaults c !! "a.b.c" = None ->
  overrides c !! "a" = None ->
  (config c !! "a" = Some v -> kindIsMap v = false ->
   Get cast 2 "a.b.c" c = Done (VNil, c)) /\
  (config c !! "a" = Some (VStringMap m) -> m !! "b" = Some (VInt KInt 5) ->
   CastLaws cast ->
   Get cast 2 "a.b.c" c = Done (VInt KInt 5, c)).
Proof.
  intros Hdelim Ha1 Ha2 Ho1 Hc1 Hd1 Ho2.
  assert (Hrk1 : realKey 1 "a.b.c" c = Done ("a.b.c", c))
    by (apply realKey_Done; split; [by apply resolve_not_alias|done]).
  assert (Hrk2 : realKey 1 "a" c = Done ("a", c))
    by (apply realKey_Done; split; [by apply resolve_not_alias|done]).
  assert (Hsplit : Split "a.b.c" (keyDelm c) = ["a"; "b"; "c"])
    by (by rewrite Hdelim).
  split.
  - intros Hc2 Hv.
    pose proof (find_config cast _ _ _ _ _ Hrk2 Ho2 Hc2) as Hsrc.
    assert (Hk : negb (is_nil v) && kindIsMap v = false)
      by (rewrite Hv; apply andb_false_r).
    assert (Hf : find cast 2 "a.b.c" c = Done (VNil, c)).
    { rewrite (find_defaults_dotted cast 1 _ c "a.b.c" "a" v); try done.
      - by rewrite Hd1.
      - by rewrite Hsplit. }
    apply (Get_nil_fallback cast 2 "a.b.c" c "a" v); try done.
    + by rewrite Hsplit.
    + apply (find_mono cast 1 2); [lia|done].
  - intros Hc2 Hb L.
    pose proof (find_config cast _ _ _ _ _ Hrk2 Ho2 Hc2) as Hsrc.
    assert (Hf : find cast 2 "a.b.c" c = Done (VInt KInt 5, c)).
    { rewrite (find_descend cast 1 _ c "a.b.c" "a" (VStringMap m)); try done.
      - rewrite Hsplit, (ToStringMap_map _ L). simpl. by rewrite Hb.
      - by rewrite Hdelim.
      - by rewrite Hsplit. }
    rewrite (Get_of_find cast 2 "a.b.c" c (VInt KInt 5)); try done.
    unfold valTypeOf. change (ToLower "a.b.c") with "a.b.c". rewrite Hd1.
    destruct (negb (typeByDefValue c)); simpl; by rewrite (ToInt_int _ L).
Qed.

Lemma Get_scalar_on_path_witness :
  Get refCast 2 "a.b.c" cScalar = Done (VNil, cScalar) /\
  Get refCast 2 "a.b.c" cNested = Done (VInt KInt 5, cNested).
Proof.
  split.
  - destruct (Get_scalar_on_path refCast cScalar (VInt KInt 5) ∅
                eq_refl eq_refl eq_refl eq_refl eq_refl eq_refl eq_refl)
      as [H _].
    apply H; reflexivity.
  - destruct (Get_scalar_on_path refCast cNested VNil {[ "b" := VInt KInt 5 ]}
                eq_refl eq_refl eq_refl eq_refl eq_refl eq_refl eq_refl)
      as [_ H].
    apply H; [reflexivity | reflexivity | apply refCast_laws].
Defined.

(** C2, as stated, fails: with config [{"a": 5}] no run of
    [Get("a.b.c")] returns 5. *)
Lemma Get_scalar_on_path_fails :
  ~ (exists (cast : Cast) (n : nat),
       Get cast n "a.b.c" cScalar = Done (VInt KInt 5, cScalar)).
Proof.
  intros (cast & n & H).
  assert (Hnil : Get cast 2 "a.b.c" cScalar = Done (VNil, cScalar))
    by reflexivity.
  pose proof (Get_functional _ _ _ _ _ _ _ H Hnil). discriminate.
Qed.

(** C3 (as amended).  For every store and every key [k] whose canonical
    lower-case form [ck] has an entry in defaults and none in overrides
    or config, and for which the dotted-path descent does not apply ([ck]
    holds no delimiter, or its first segment resolves to nothing or to a
    value that is not a map): [find] returns the default; when the
    default is not nil, [Get] returns it through its type switch, and with
    [typeByDefValue] off and a value of a native type that is the default
    itself; [InConfig] of the lower-cased key is false. *)
Theorem Get_default_only (cast : Cast) (n : nat) (c : Config)
    (k ck : string) (vd : Value) :
  realKey n (ToLower k) c = Done (ck, c) ->
  overrides c !! ck = None ->
  config c !! ck = None ->
  defaults c !! ck = Some vd ->
  (Contains ck (keyDelm c) = false \/
   exists p0 src,
     head (Split ck (keyDelm c)) = Some p0 /\
     find cast n p0 c = Done (src, c) /\
     negb (is_nil src) && kindIsMap src = false) ->
  find cast (S n) (ToLower k) c = Done (vd, c) /\
  (vd <> VNil ->
   Get cast (S n) k c
   = Done (coerce cast (valTypeOf c (ToLower k) vd) vd, c)) /\
  (vd <> VNil -> CastLaws cast -> typeByDefValue c = false ->
   native vd = true -> Get cast (S n) k c = Done (vd, c)) /\
  InConfig n (ToLower k) c = Done (false, c).
Proof.
  intros Hrk Ho Hc Hd Hpath.
  assert (Hf : find cast (S n) (ToLower k) c = Done (vd, c)).
  { destruct Hpath as [Hno|(p0 & src & Hp & Hsrc & Hk)].
    - apply (find_mono cast n (S n)); [lia|].
      rewrite (find_defaults_plain cast n _ c ck); try done. by rewrite Hd.
    - rewrite (find_defaults_dotted cast n _ c ck p0 src); try done.
      by rewrite Hd. }
  split; [done|]. split; [|split].
  - intros Hv. by apply Get_of_find.
  - intros Hv L Hflag Hn. by apply Get_of_find_native.
  - unfold InConfig. rewrite (bind_Done _ _ _ _ _ Hrk), bind_gets.
    by rewrite Hc.
Qed.

Lemma Get_default_only_witness :
  Get refCast 2 "Port" cDefault = Done (VInt KInt 8080, cDefault) /\
  InConfig 1 (ToLower "Port") cDefault = Done (false, cDefault).
Proof.
  destruct (Get_default_only refCast 1 cDefault "Port" "port"
              (VInt KInt 8080)) as (_ & _ & HG & HI);
    [reflexivity | reflexivity | reflexivity | reflexivity
    | left; reflexivity |].
  split; [|exact HI].
  apply HG; [discriminate | apply refCast_laws | reflexivity | reflexivity].
Defined.

Lemma cShadow_built :
  (SetDefault 1 "a.b" (VInt KInt 1) ;;;
   ReadInConfig (Some {[ "a" := VStringMap {[ "b" := VInt KInt 2 ]} ]})) New
  = Done (tt, cShadow).
Proof. reflexivity. Qed.

(** C3, as stated, fails: ["a.b"] is in defaults only, yet [Get("a.b")]
    is the 2 that the config layer holds under ["a"], not the default 1. *)
Lemma Get_default_only_fails :
  ~ (forall (cast : Cast) (c : Config) (k ck : string) (vd : Value) (n : nat),
       CastLaws cast ->
       realKey n (ToLower k) c = Done (ck, c) ->
       overrides c !! ck = None ->
       config c !! ck = None ->
       defaults c !! ck = Some vd ->
       (exists m, Get cast m k c = Done (vd, c)) /\
       (exists m, InConfig m k c = Done (false, c))).
Proof.
  intros H.
  destruct (H refCast cShadow "a.b" "a.b" (VInt KInt 1) 1 refCast_laws
              eq_refl eq_refl eq_refl eq_refl) as [[m Hm] _].
  assert (H2 : Get refCast 2 "a.b" cShadow = Done (VInt KInt 2, cShadow))
    by reflexivity.
  pose proof (Get_functional _ _ _ _ _ _ _ Hm H2). discriminate.
Qed.

(** C8.  [searchMap root segments]: with no segment left it returns
    [root] itself; otherwise, when the first segment is not a key of
    [root] it returns nil; when the first segment maps to a nested map
    (a [map[string]interface{}], or a [map[interface{}]interface{}]
    converted by [cast.ToStringMap]) it is the search of that map with
    the remaining segments; when it maps to anything else it returns
    that value at once, whatever segments remain. *)
Theorem searchMap_contract (cast : Cast) (root : gmap string Value)
    (seg : string) (rest : list string) (c : Config) :
  searchMap cast root [] c = Done (VStringMap root, c) /\
  (root !! seg = None ->
   searchMap cast root (seg :: rest) c = Done (VNil, c)) /\
  (forall m, root !! seg = Some (VStringMap m) ->
   searchMap cast root (seg :: rest) c = searchMap cast m rest c) /\
  (forall l, root !! seg = Some (VIfaceMap l) ->
   searchMap cast root (seg :: rest) c
   = searchMap cast (ToStringMap cast (VIfaceMap l)) rest c) /\
  (forall v, root !! seg = Some v -> isMapping v = false ->
   searchMap cast root (seg :: rest) c = Done (v, c)).
Proof.
  split; [reflexivity|].
  split; [intros H; simpl; by rewrite H|].
  split; [intros m H; simpl; by rewrite H|].
  split; [intros l H; simpl; by rewrite H|].
  intros v H Hv. simpl. rewrite H. by destruct v.
Qed.

Lemma searchMap_contract_witness :
  searchMap refCast mSettings ["cache"; "size"] New = Done (VNil, New) /\
  searchMap refCast mSettings ["debug"; "level"] New = Done (VBool true, New) /\
  searchMap refCast mSettings ["db"; "port"] New
  = searchMap refCast (<[ "name" := VString "main" ]>
                       {[ "port" := VInt KInt 5432 ]}) ["port"] New.
Proof.
  split; [|split].
  - destruct (searchMap_contract refCast mSettings "cache" ["size"] New)
      as (_ & H & _).
    apply H. reflexivity.
  - destruct (searchMap_contract refCast mSettings "debug" ["level"] New)
      as (_ & _ & _ & _ & H).
    apply H; reflexivity.
  - destruct (searchMap_contract refCast mSettings "db" ["port"] New)
      as (_ & _ & H & _).
    apply H. reflexivity.
Defined.

(** C10.  [Get], [find], [searchMap], [IsSet], [InConfig], [AllKeys] and
    [AllSettings] leave the store as they found it: after any of these
    calls the three layers and the alias table (the whole record) are
    what they were before the call. *)
Theorem reads_preserve_store (cast : Cast) (fuel : nat) (key : string)
    (s : gmap string Value) (p : list string) :
  preserves (Get cast fuel key) /\
  preserves (find cast fuel key) /\
  preserves (searchMap cast s p) /\
  preserves (IsSet cast fuel key) /\
  preserves (InConfig fuel key) /\
  preserves AllKeys /\
  preserves (AllSettings cast fuel).
Proof.
  split; [apply preserves_Get|].
  split; [apply preserves_find|].
  split; [apply preserves_searchMap|].
  split; [apply preserves_IsSet|].
  split; [apply preserves_InConfig|].
  split; [apply preserves_AllKeys|apply preserves_AllSettings].
Qed.

(** ** Registering aliases *)

Lemma migrate_config alias key c :
  migrate config with_config alias key c
  = Done (tt, with_config (migrated alias key) c).
Proof.
  unfold migrate, migrated. rewrite bind_gets.
  destruct c as [kd cf df ov al fl]; unfold with_config; simpl.
  by destruct (cf !! alias).
Qed.

Lemma migrate_defaults alias key c :
  migrate defaults with_defaults alias key c
  = Done (tt, with_defaults (migrated alias key) c).
Proof.
  unfold migrate, migrated. rewrite bind_gets.
  destruct c as [kd cf df ov al fl]; unfold with_defaults; simpl.
  by destruct (df !! alias).
Qed.

Lemma migrate_overrides alias key c :
  migrate overrides with_overrides alias key c
  = Done (tt, with_overrides (migrated alias key) c).
Proof.
  unfold migrate, migrated. rewrite bind_gets.
  destruct c as [kd cf df ov al fl]; unfold with_overrides; simpl.
  by destruct (ov !! alias).
Qed.

Lemma eqb_refl_string (s : string) : String.eqb s s = true.
Proof. by apply String.eqb_eq. Qed.

Lemma eqb_neq_string (s t : string) : s <> t -> String.eqb s t = false.
Proof. by intros H; apply String.eqb_neq. Qed.

(** The target resolves to the alias: nothing is written. *)
Lemma registerAlias_circular n c alias key :
  realKey n key c = Done (ToLower alias, c) ->
  registerAlias n alias key c = Done (tt, c).
Proof.
  intros Hrk. unfold registerAlias. cbv zeta.
  rewrite (bind_Done _ _ c false c).
  - by rewrite (bind_Done _ _ _ _ _ Hrk).
  - destruct (negb (ToLower alias =? key)%string); [|done].
    rewrite (bind_Done _ _ _ _ _ Hrk). by rewrite eqb_refl_string.
Qed.

(** The alias is already in the table: nothing is written. *)
Lemma registerAlias_known n c alias key r old :
  ToLower alias <> key ->
  realKey n key c = Done (r, c) ->
  r <> ToLower alias ->
  aliases c !! ToLower alias = Some old ->
  registerAlias n alias key c = Done (tt, c).
Proof.
  intros Hne Hrk Hr He. unfold registerAlias. cbv zeta.
  rewrite (eqb_neq_string _ _ Hne). simpl negb.
  rewrite (bind_Done _ _ c true c).
  - rewrite bind_gets. by rewrite He.
  - rewrite (bind_Done _ _ _ _ _ Hrk).
    rewrite eqb_neq_string; [done|congruence].
Qed.

(** The registration is accepted: the three layers are migrated and the
    table gets the new entry. *)
Lemma registerAlias_accepted n c alias key r :
  ToLower alias <> key ->
  realKey n key c = Done (r, c) ->
  r <> ToLower alias ->
  aliases c !! ToLower alias = None ->
  registerAlias n alias key c = Done (tt, aliased (ToLower alias) key c).
Proof.
  intros Hne Hrk Hr He. unfold registerAlias. cbv zeta.
  rewrite (eqb_neq_string _ _ Hne). simpl negb.
  rewrite (bind_Done _ _ c true c).
  - rewrite bind_gets, He.
    rewrite (bind_Done _ _ _ _ _ (migrate_config _ _ _)).
    rewrite (bind_Done _ _ _ _ _ (migrate_defaults _ _ _)).
    rewrite (bind_Done _ _ _ _ _ (migrate_overrides _ _ _)).
    reflexivity.
  - rewrite (bind_Done _ _ _ _ _ Hrk).
    rewrite eqb_neq_string; [done|congruence].
Qed.

(** Every run of [registerAlias] that returns is one of the three above. *)
Lemma registerAlias_cases n c alias key c' :
  registerAlias n alias key c = Done (tt, c') ->
  c' = c \/
  (c' = aliased (ToLower alias) key c /\
   ToLower alias <> key /\
   aliases c !! ToLower alias = None /\
   exists r, resolve n (aliases c) key = Some r /\ r <> ToLower alias).
Proof.
  intros H.
  destruct (realKey n key c) as [[r c1]| |] eqn:Hrk.
  - apply realKey_Done in Hrk as Hrk'. destruct Hrk' as [Hres ->].
    destruct (decide (ToLower alias = key)) as [Heq|Hne].
    + left. unfold registerAlias in H. cbv zeta in H.
      rewrite Heq, eqb_refl_string in H. cbn [negb] in H.
      rewrite bind_ret, (bind_Done _ _ _ _ _ Hrk) in H. by injection H.
    + destruct (decide (r = ToLower alias)) as [->|Hr].
      * left. rewrite (registerAlias_circular _ _ _ _ Hrk) in H.
        by injection H.
      * destruct (aliases c !! ToLower alias) as [old|] eqn:He.
        -- left. rewrite (registerAlias_known _ _ _ _ _ _ Hne Hrk Hr He) in H.
           by injection H.
        -- right. rewrite (registerAlias_accepted _ _ _ _ _ Hne Hrk Hr He) in H.
           injection H as <-. eauto 10.
  - exfalso. unfold registerAlias in H. cbv zeta in H.
    destruct (negb (ToLower alias =? key)%string);
      unfold bind, ret in H; by rewrite Hrk in H.
  - exfalso. unfold registerAlias in H. cbv zeta in H.
    destruct (negb (ToLower alias =? key)%string);
      unfold bind, ret in H; by rewrite Hrk in H.
Qed.

(** ** Reachable stores and the alias table *)

(** A chain that does not end in [alias] does not see a new entry for
    [alias]. *)
Lemma resolve_insert_avoid n (a : gmap string string) alias key k r :
  a !! alias = None ->
  resolve n a k = Some r ->
  r <> alias ->
  resolve n (<[alias := key]> a) k = Some r.
Proof.
  intros Ha. revert k. induction n as [|n IH]; intros k H Hr; [done|].
  simpl in *. destruct (a !! k) as [k2|] eqn:E.
  - assert (k <> alias) by congruence.
    rewrite lookup_insert_ne by done. rewrite E. by apply IH.
  - injection H as ->. rewrite lookup_insert_ne by done. by rewrite E.
Qed.

(** A chain that ends in [alias] goes on, through the new entry, to
    where the chain of [key] ends. *)
Lemma resolve_insert_through n m (a : gmap string string) alias key k r rk :
  a !! alias = None ->
  resolve n a key = Some r ->
  r <> alias ->
  resolve m a k = Some rk ->
  resolve (m + n) (<[alias := key]> a) k
  = Some (if decide (rk = alias) then r else rk).
Proof.
  intros Ha Hkey Hr. revert k. induction m as [|m IH]; intros k H; [done|].
  simpl in *. destruct (a !! k) as [k2|] eqn:E.
  - assert (k <> alias) by congruence.
    rewrite lookup_insert_ne by done. rewrite E. by apply IH.
  - injection H as <-. destruct (decide (k = alias)) as [->|Hne].
    + rewrite lookup_insert_eq.
      apply (resolve_mono n); [lia|]. by apply resolve_insert_avoid.
    + rewrite lookup_insert_ne by done. by rewrite E.
Qed.

Lemma alias_wf_empty : alias_wf ∅.
Proof. exists 1. intros k. simpl. rewrite lookup_empty. by eexists. Qed.

(** The guard of [registerAlias] keeps the table well founded. *)
Lemma alias_wf_insert n (a : gmap string string) alias key r :
  alias_wf a ->
  a !! alias = None ->
  resolve n a key = Some r ->
  r <> alias ->
  alias_wf (<[alias := key]> a).
Proof.
  intros [N HN] Ha Hkey Hr. exists (N + n). intros k.
  destruct (HN k) as [rk Hrk].
  rewrite (resolve_insert_through n N a alias key k r rk); by eauto.
Qed.

Lemma Set_aliases n k v c c' :
  Set_ n k v c = Done (tt, c') -> aliases c' = aliases c.
Proof.
  unfold Set_. intros H. apply bind_inv in H as (ck & c1 & Hrk & H).
  apply realKey_Done in Hrk as [_ ->]. by injection H as <-.
Qed.

Lemma SetDefault_aliases n k v c c' :
  SetDefault n k v c = Done (tt, c') -> aliases c' = aliases c.
Proof.
  unfold SetDefault. intros H. apply bind_inv in H as (ck & c1 & Hrk & H).
  apply realKey_Done in Hrk as [_ ->]. by injection H as <-.
Qed.

Lemma ReadInConfig_aliases loaded c c' :
  ReadInConfig loaded c = Done (tt, c') -> aliases c' = aliases c.
Proof. destruct loaded; by intros [= <-]. Qed.

(** On every reachable store the alias table is well founded. *)
Lemma reachable_alias_wf c : reachable c -> alias_wf (aliases c).
Proof.
  induction 1 as [|c n k v c' _ IH H|c n k v c' _ IH H
                  |c n a k c' _ IH H|c loaded c' _ IH H].
  - apply alias_wf_empty.
  - by rewrite (Set_aliases _ _ _ _ _ H).
  - by rewrite (SetDefault_aliases _ _ _ _ _ H).
  - apply registerAlias_cases in H
      as [->|(-> & _ & Ha & r & Hr & Hne)]; [done|].
    simpl. by eapply alias_wf_insert.
  - by rewrite (ReadInConfig_aliases _ _ _ H).
Qed.

(** X17.  On every reachable store [realKey] returns on every key,
    within a number of calls that serves all keys, and what it returns
    is not an alias. *)
Lemma reachable_realKey_returns c :
  reachable c ->
  exists N, forall key, exists r,
    realKey N key c = Done (r, c) /\ aliases c !! r = None.
Proof.
  intros Hc. destruct (reachable_alias_wf c Hc) as [N HN].
  exists N. intros key. destruct (HN key) as [r Hr]. exists r.
  split; [by apply realKey_Done|by eapply resolve_fixed].
Qed.

(** [searchMap] returns on every map and every path. *)
Lemma searchMap_returns cast s p c :
  exists v, searchMap cast s p c = Done (v, c).
Proof.
  revert s. induction p as [|p0 rest IH]; intros s; simpl; [by eexists|].
  destruct (s !! p0) as [next|]; [|by eexists].
  destruct next; try (by eexists); apply IH.
Qed.

(** ** Where [find] returns

    With ["."] for delimiter and no alias for a dotted key, the nested
    call of [find] is on a key without delimiter and is the last one. *)

Lemma prefix_dot a r :
  String.prefix "." (String a r) = if ascii_dec "." a then true else false.
Proof.
  change (String.prefix "." (String a r))
    with (if ascii_dec "." a then String.prefix "" r else false).
  destruct (ascii_dec "." a); [|done]. by destruct r.
Qed.

Lemma Contains_dot_cons a r :
  Contains (String a r) "." = (if ascii_dec "." a then true else Contains r ".").
Proof.
  change (Contains (String a r) ".")
    with (String.prefix "." (String a r) || Contains r ".").
  rewrite prefix_dot. by destruct (ascii_dec "." a).
Qed.

Lemma Contains_dot_app s1 s2 :
  Contains (s1 +:+ s2) "." = Contains s1 "." || Contains s2 ".".
Proof.
  induction s1 as [|a r IH].
  - reflexivity.
  - change (String a r +:+ s2) with (String a (r +:+ s2)).
    rewrite !Contains_dot_cons. by destruct (ascii_dec "." a).
Qed.

Lemma splitFrom_dot_cons cur a r :
  splitFrom "." 0 cur (String a r) =
  if ascii_dec "." a then cur :: splitFrom "." 0 "" r
  else splitFrom "." 0 (cur +:+ String a "") r.
Proof.
  change (splitFrom "." 0 cur (String a r))
    with (if String.prefix "." (String a r)
          then cur :: splitFrom "." 0 "" r
          else splitFrom "." 0 (cur +:+ String a "") r).
  rewrite prefix_dot. by destruct (ascii_dec "." a).
Qed.

Lemma head_splitFrom_dot s cur :
  Contains cur "." = false ->
  exists p0, head (splitFrom "." 0 cur s) = Some p0 /\ Contains p0 "." = false.
Proof.
  revert cur. induction s as [|a r IH]; intros cur Hcur.
  - by exists cur.
  - rewrite splitFrom_dot_cons. destruct (ascii_dec "." a) as [Heq|Hne].
    + by exists cur.
    + apply IH.
      rewrite Contains_dot_app, Hcur, Contains_dot_cons.
      by destruct (ascii_dec "." a).
Qed.

(** The first segment of a split on ["."] exists and holds no ["."]. *)
Lemma head_Split_dot s :
  exists p0, head (Split s ".") = Some p0 /\ Contains p0 "." = false.
Proof. by apply head_splitFrom_dot. Qed.

(** A chain ends in the key it started from or in the target of an
    alias. *)
Lemma resolve_origin n (a : gmap string string) k r :
  resolve n a k = Some r -> r = k \/ exists k', a !! k' = Some r.
Proof.
  revert k. induction n as [|n IH]; intros k H; [done|]. simpl in H.
  destruct (a !! k) as [k2|] eqn:E.
  - destruct (IH _ H) as [->|?]; eauto.
  - injection H as <-. by left.
Qed.

Lemma Set_keyDelm n k v c c' :
  Set_ n k v c = Done (tt, c') -> keyDelm c' = keyDelm c.
Proof.
  unfold Set_. intros H. apply bind_inv in H as (ck & c1 & Hrk & H).
  apply realKey_Done in Hrk as [_ ->]. by injection H as <-.
Qed.

Lemma SetDefault_keyDelm n k v c c' :
  SetDefault n k v c = Done (tt, c') -> keyDelm c' = keyDelm c.
Proof.
  unfold SetDefault. intros H. apply bind_inv in H as (ck & c1 & Hrk & H).
  apply realKey_Done in Hrk as [_ ->]. by injection H as <-.
Qed.

Lemma ReadInConfig_keyDelm loaded c c' :
  ReadInConfig loaded c = Done (tt, c') -> keyDelm c' = keyDelm c.
Proof. destruct loaded; by intros [= <-]. Qed.

(** The delimiter of a reachable store is the ["."] of [New]. *)
Lemma reachable_keyDelm c : reachable c -> keyDelm c = ".".
Proof.
  induction 1 as [|c n k v c' _ IH H|c n k v c' _ IH H
                  |c n a k c' _ IH H|c loaded c' _ IH H].
  - reflexivity.
  - by rewrite (Set_keyDelm _ _ _ _ _ H).
  - by rewrite (SetDefault_keyDelm _ _ _ _ _ H).
  - by apply registerAlias_cases in H as [->|(-> & _)].
  - by rewrite (ReadInConfig_keyDelm _ _ _ H).
Qed.

Section Returns.

Variable cast : Cast.

(** The canonical key holds no delimiter: [find] returns without a
    nested call. *)
Lemma find_returns_flat m key c ck :
  realKey m key c = Done (ck, c) ->
  Contains ck (keyDelm c) = false ->
  exists v, find cast m key c = Done (v, c).
Proof.
  intros Hrk Hflat. destruct m as [|m]; [done|].
  rewrite find_S, (bind_Done _ _ _ _ _ Hrk), bind_gets.
  destruct (overrides c !! ck); [by eexists|]. rewrite bind_gets.
  destruct (config c !! ck); [by eexists|].
  cbv zeta. rewrite bind_gets, Hflat, bind_gets.
  destruct (defaults c !! ck); by eexists.
Qed.

Lemma find_returns_plain c :
  keyDelm c = "." ->
  alias_wf (aliases c) ->
  plain_aliases c ->
  exists N, forall key, exists v, find cast N key c = Done (v, c).
Proof.
  intros Hdelim [N HN] Hplain. exists (S N). intros key.
  assert (Hrk : forall k, exists r, realKey N k c = Done (r, c)).
  { intros k. destruct (HN k) as [r Hr]. exists r. by apply realKey_Done. }
  destruct (Hrk key) as [ck Hck].
  apply (realKey_mono N (S N)) in Hck as Hck'; [|lia].
  rewrite find_S, (bind_Done _ _ _ _ _ Hck'), bind_gets.
  destruct (overrides c !! ck); [by eexists|]. rewrite bind_gets.
  destruct (config c !! ck); [by eexists|].
  cbv zeta. rewrite bind_gets.
  destruct (Contains ck (keyDelm c)).
  - rewrite Hdelim.
    destruct (head_Split_dot ck) as (p0 & Hp0 & Hflat).
    destruct (Split ck ".") as [|p0' rest]; [done|]. injection Hp0 as ->.
    simpl index0. rewrite bind_ret.
    destruct (Hrk p0) as [r Hr].
    assert (Hr' : Contains r (keyDelm c) = false).
    { apply realKey_Done in Hr as Hres. destruct Hres as [Hres _].
      apply resolve_origin in Hres as [->|[k' Hk']].
      - by rewrite Hdelim.
      - by eapply Hplain. }
    destruct (find_returns_flat N p0 c r Hr Hr') as [src Hsrc].
    rewrite (bind_Done _ _ _ _ _ Hsrc).
    destruct (negb (is_nil src) && kindIsMap src).
    + apply searchMap_returns.
    + rewrite bind_gets. destruct (defaults c !! ck); by eexists.
  - rewrite bind_gets. destruct (defaults c !! ck); by eexists.
Qed.

(** X18.  On a reachable store without an alias for a dotted key,
    [find] returns on every key. *)
Lemma reachable_find_returns c :
  reachable c ->
  plain_aliases c ->
  exists N, forall key, exists v, find cast N key c = Done (v, c).
Proof.
  intros Hc Hplain. apply find_returns_plain.
  - by apply reachable_keyDelm.
  - by apply reachable_alias_wf.
  - done.
Qed.

End Returns.

(** C5.  A registration whose target resolves to the alias itself is
    skipped: [registerAlias] returns normally and the store, alias table
    included, is what it was.  In particular [RegisterAlias("x", "y")] on
    a new store is accepted, [RegisterAlias("y", "x")] after it is the
    one that is skipped, and then [realKey] returns on every key with a
    result that is not an alias: no alias resolves to itself. *)
Theorem alias_cycle_rejected (n : nat) (c : Config) (alias key : string) :
  (realKey n key c = Done (ToLower alias, c) ->
   registerAlias n alias key c = Done (tt, c)) /\
  RegisterAlias 1 "x" "y" New = Done (tt, cXY) /\
  aliases cXY !! "x" = Some "y" /\
  RegisterAlias 2 "y" "x" cXY = Done (tt, cXY) /\
  (forall k, exists r,
     realKey 2 k cXY = Done (r, cXY) /\ aliases cXY !! r = None).
Proof.
  split; [apply registerAlias_circular|].
  split; [reflexivity|]. split; [reflexivity|]. split; [reflexivity|].
  intros k. destruct (decide (k = "x")) as [->|Hk].
  - exists "y". by split.
  - assert (Hnone : aliases cXY !! k = None).
    { unfold cXY. simpl. rewrite lookup_insert_ne by done.
      apply lookup_empty. }
    exists k. split; [|done].
    apply realKey_Done. split; [by apply resolve_not_alias|done].
Qed.

Lemma alias_cycle_rejected_witness :
  realKey 2 "x" cXY = Done (ToLower "Y", cXY) /\
  registerAlias 2 "Y" "x" cXY = Done (tt, cXY).
Proof.
  assert (H : realKey 2 "x" cXY = Done (ToLower "Y", cXY)) by reflexivity.
  split; [exact H|].
  exact (proj1 (alias_cycle_rejected 2 cXY "Y" "x") H).
Defined.

(** ** [find] on an alias for a dotted key that starts with the alias *)

Section Stuck.

Variable cast : Cast.

(** The descent is entered and the inner call never returns. *)
Lemma find_stuck n key c ck p0 :
  realKey (S n) key c = Done (ck, c) ->
  overrides c !! ck = None ->
  config c !! ck = None ->
  Contains ck (keyDelm c) = true ->
  head (Split ck (keyDelm c)) = Some p0 ->
  find cast n p0 c = OutOfFuel ->
  find cast (S n) key c = OutOfFuel.
Proof.
  intros Hrk Ho Hc Hd Hp Hsrc.
  rewrite find_S, (bind_Done _ _ _ _ _ Hrk), bind_gets, Ho, bind_gets, Hc.
  cbv zeta. rewrite bind_gets, Hd.
  destruct (Split ck (keyDelm c)) as [|p0' rest]; [done|].
  injection Hp as ->. simpl index0. rewrite bind_ret.
  unfold bind. by rewrite Hsrc.
Qed.

Lemma Get_stuck n key c :
  find cast n (ToLower key) c = OutOfFuel ->
  Get cast n key c = OutOfFuel.
Proof.
  intros H. unfold Get. rewrite bind_gets. cbv zeta.
  unfold bind at 1. by rewrite H.
Qed.

End Stuck.

(** C6 fails on the code.  [RegisterAlias("a", "a.b")] is accepted on a
    new store, and on the store it leaves [find("a")] and [Get("a")]
    exhaust every fuel: the canonical key ["a.b"] is stored nowhere, it
    holds the delimiter, and its first segment is ["a"] again. *)
Theorem find_diverges_on_reachable_store (cast : Cast) :
  RegisterAlias 1 "a" "a.b" New = Done (tt, cLoop) /\
  reachable cLoop /\
  (forall fuel, find cast fuel "a" cLoop = OutOfFuel) /\
  (forall fuel, Get cast fuel "a" cLoop = OutOfFuel).
Proof.
  assert (Hreg : RegisterAlias 1 "a" "a.b" New = Done (tt, cLoop))
    by reflexivity.
  assert (Hfind : forall fuel, find cast fuel "a" cLoop = OutOfFuel).
  { induction fuel as [|fuel IH]; [reflexivity|].
    destruct fuel as [|fuel]; [reflexivity|].
    by apply (find_stuck cast (S fuel) "a" cLoop "a.b" "a"). }
  split; [done|].
  split; [by eapply reach_RegisterAlias; [apply reach_New|]|].
  split; [done|].
  intros fuel. apply Get_stuck. apply Hfind.
Qed.

(** ** Migration on registration *)

Lemma migrated_lookup_alias alias key (m : gmap string Value) :
  alias <> key -> migrated alias key m !! alias = None.
Proof.
  intros Hne. unfold migrated. destruct (m !! alias) eqn:E; [|done].
  rewrite lookup_insert_ne by done. apply lookup_delete_eq.
Qed.

Lemma migrated_lookup_key alias key (m : gmap string Value) v :
  m !! alias = Some v -> migrated alias key m !! key = Some v.
Proof.
  intros E. unfold migrated. rewrite E. apply lookup_insert_eq.
Qed.

(** What an accepted registration does: in each layer the entry of the
    alias is gone and sits under [key], the key that was passed in. *)
Lemma registerAlias_moves_to_key n c alias key r :
  ToLower alias <> key ->
  realKey n key c = Done (r, c) ->
  r <> ToLower alias ->
  aliases c !! ToLower alias = None ->
  exists c',
    registerAlias n alias key c = Done (tt, c') /\
    overrides c' !! ToLower alias = None /\
    config c' !! ToLower alias = None /\
    defaults c' !! ToLower alias = None /\
    (forall v, overrides c !! ToLower alias = Some v ->
               overrides c' !! key = Some v) /\
    (forall v, config c !! ToLower alias = Some v ->
               config c' !! key = Some v) /\
    (forall v, defaults c !! ToLower alias = Some v ->
               defaults c' !! key = Some v).
Proof.
  intros Hne Hrk Hr He. exists (aliased (ToLower alias) key c).
  split; [by eapply registerAlias_accepted|]. simpl.
  repeat split; auto using migrated_lookup_alias, migrated_lookup_key.
Qed.

(** C7 fails on the code.  [registerAlias] moves the entries of the alias
    to the key it was given, not to the key that [realKey] reaches: when
    ["b"] is already an alias for ["c"], registering ["a"] for ["b"]
    leaves the override of ["a"] under ["b"], where no lookup goes, and
    [Get] is nil under each of the three names. *)
Theorem registerAlias_strands_entry (cast : Cast) :
  (RegisterAlias 1 "b" "c" ;;;
   Set_ 1 "a" (VInt KInt 1) ;;;
   RegisterAlias 2 "a" "b") New = Done (tt, cLost) /\
  realKey 3 "a" cLost = Done ("c", cLost) /\
  overrides cLost !! "c" = None /\
  overrides cLost !! "b" = Some (VInt KInt 1) /\
  (forall n, 3 <= n ->
     Get cast n "a" cLost = Done (VNil, cLost) /\
     Get cast n "b" cLost = Done (VNil, cLost) /\
     Get cast n "c" cLost = Done (VNil, cLost)).
Proof.
  split; [reflexivity|]. split; [reflexivity|].
  split; [reflexivity|]. split; [reflexivity|].
  intros n Hn.
  split; [|split]; by apply (Get_mono cast 3 n).
Qed.

(** ** Letter case *)

(** [Set], [SetDefault] and [RegisterAlias] see a key through [ToLower]
    only. *)
Lemma Set_case n k k' v : ToLower k = ToLower k' -> Set_ n k v = Set_ n k' v.
Proof. unfold Set_. by intros ->. Qed.

Lemma SetDefault_case n k k' v :
  ToLower k = ToLower k' -> SetDefault n k v = SetDefault n k' v.
Proof. unfold SetDefault. by intros ->. Qed.

Lemma RegisterAlias_case n a a' k k' :
  ToLower a = ToLower a' -> ToLower k = ToLower k' ->
  RegisterAlias n a k = RegisterAlias n a' k'.
Proof. unfold RegisterAlias, registerAlias. by intros -> ->. Qed.

(** C4 fails on the code.  [InConfig] resolves the key as written: after
    a load of [{"foo": 1}], [InConfig("foo")] is true and
    [InConfig("Foo")] is false.  [Get] splits the key as written for its
    second attempt: after a load of [{"a": {"B": 5}}], ["a.B"] is set and
    ["a.b"] is not (run with the reference collaborator). *)
Theorem lookups_case_sensitive :
  ToLower "Foo" = ToLower "foo" /\
  ReadInConfig (Some {[ "foo" := VInt KInt 1 ]}) New = Done (tt, cFoo) /\
  InConfig 1 "foo" cFoo = Done (true, cFoo) /\
  (forall n, 1 <= n -> InConfig n "Foo" cFoo = Done (false, cFoo)) /\
  ToLower "a.B" = ToLower "a.b" /\
  IsSet refCast 2 "a.B" cUpper = Done (true, cUpper) /\
  (forall n, 2 <= n -> IsSet refCast n "a.b" cUpper = Done (false, cUpper)).
Proof.
  split; [reflexivity|]. split; [reflexivity|]. split; [reflexivity|].
  split.
  { intros n Hn. destruct n as [|n]; [lia|]. reflexivity. }
  split; [reflexivity|]. split; [reflexivity|].
  intros n Hn. unfold IsSet.
  assert (H : Get refCast 2 "a.b" cUpper = Done (VNil, cUpper))
    by reflexivity.
  apply (Get_mono refCast 2 n) in H; [|done].
  by rewrite (bind_Done _ _ _ _ _ H).
Qed.

(** ** Alias transparency *)

Section Transparency.

Variable cast : Cast.

Lemma Set_spec n k v c ck :
  realKey n (ToLower k) c = Done (ck, c) ->
  Set_ n k v c = Done (tt, with_overrides (fun m => <[ck := v]> m) c).
Proof. intros H. unfold Set_. by rewrite (bind_Done _ _ _ _ _ H). Qed.

(** A key without delimiter whose override is [v] reads as [v] seen
    through [Get]. *)
Lemma Get_override_plain n k c ck v :
  ToLower k = k ->
  Split k (keyDelm c) = [k] ->
  realKey n k c = Done (ck, c) ->
  overrides c !! ck = Some v ->
  Get cast n k c = Done (gotten cast c k v, c).
Proof.
  intros Hlow Hsplit Hrk Ho.
  pose proof (find_override cast _ _ _ _ _ Hrk Ho) as Hf.
  unfold gotten. destruct (is_nil v) eqn:Hnil.
  - assert (v = VNil) as -> by (by destruct v).
    apply (Get_nil_fallback cast n k c k VNil); try done.
    + by rewrite Hlow.
    + by rewrite Hsplit.
  - assert (Hv : v <> VNil) by (by intros ->).
    rewrite <- Hlow in Hf.
    pose proof (Get_of_find cast n k c v Hf Hv) as HG.
    by rewrite Hlow in HG.
Qed.

End Transparency.

Lemma gotten_native cast c lk v :
  CastLaws cast -> typeByDefValue c = false -> native v = true ->
  gotten cast c lk v = v.
Proof.
  intros L Hflag Hn. unfold gotten, valTypeOf. rewrite Hflag. simpl.
  destruct (is_nil v) eqn:E; [by destruct v|by apply coerce_native].
Qed.

(** One direction of the transparency: a [Set] through [k1] is read
    through [k2] when both resolve to the same canonical key. *)
Lemma Set_then_Get cast n c k1 k2 r v :
  ToLower k1 = k1 -> ToLower k2 = k2 ->
  Split k2 (keyDelm c) = [k2] ->
  realKey n k1 c = Done (r, c) ->
  realKey n k2 c = Done (r, c) ->
  exists c',
    Set_ n k1 v c = Done (tt, c') /\
    aliases c' = aliases c /\
    keyDelm c' = keyDelm c /\
    Get cast n k2 c' = Done (gotten cast c' k2 v, c') /\
    (CastLaws cast -> typeByDefValue c = false -> native v = true ->
     Get cast n k2 c' = Done (v, c')).
Proof.
  intros Hl1 Hl2 Hsplit Hrk1 Hrk2.
  exists (with_overrides (fun m => <[r := v]> m) c).
  assert (HG : Get cast n k2 (with_overrides (fun m => <[r := v]> m) c)
               = Done (gotten cast (with_overrides (fun m => <[r := v]> m) c)
                         k2 v,
                       with_overrides (fun m => <[r := v]> m) c)).
  { apply (Get_override_plain cast n k2 _ r v); try done.
    - apply realKey_Done. by apply realKey_Done in Hrk2 as [? _].
    - simpl. apply lookup_insert_eq. }
  split; [apply Set_spec; by rewrite Hl1|].
  split; [done|]. split; [done|]. split; [done|].
  intros L Hflag Hn. rewrite HG. by rewrite gotten_native.
Qed.

(** C9 (as amended).  On a store in which ["new"] is no alias yet and
    ["old"] does not resolve to ["new"], [RegisterAlias("new", "old")]
    enters ["new"] in the alias table.  On every later store in which
    that entry stands, a [Set] through either name keeps the alias table
    and is read by [Get] through the other name: [Get] returns the value
    that was set as its type switch hands it back, which with
    [typeByDefValue] off and a value of a native type is the value
    itself. *)
Theorem alias_transparency (cast : Cast) (n : nat) (c0 c : Config)
    (r0 r : string) (v : Value) :
  (aliases c0 !! "new" = None ->
   realKey n "old" c0 = Done (r0, c0) ->
   r0 <> "new" ->
   RegisterAlias n "new" "old" c0 = Done (tt, aliased "new" "old" c0) /\
   aliases (aliased "new" "old" c0) !! "new" = Some "old") /\
  (keyDelm c = "." ->
   aliases c !! "new" = Some "old" ->
   realKey n "old" c = Done (r, c) ->
   (exists c',
      Set_ (S n) "new" v c = Done (tt, c') /\
      aliases c' = aliases c /\
      keyDelm c' = keyDelm c /\
      Get cast (S n) "old" c' = Done (gotten cast c' "old" v, c') /\
      (CastLaws cast -> typeByDefValue c = false -> native v = true ->
       Get cast (S n) "old" c' = Done (v, c'))) /\
   (exists c',
      Set_ (S n) "old" v c = Done (tt, c') /\
      aliases c' = aliases c /\
      keyDelm c' = keyDelm c /\
      Get cast (S n) "new" c' = Done (gotten cast c' "new" v, c') /\
      (CastLaws cast -> typeByDefValue c = false -> native v = true ->
       Get cast (S n) "new" c' = Done (v, c')))).
Proof.
  split.
  - intros Ha Hrk Hr. split; [|apply lookup_insert_eq].
    by apply (registerAlias_accepted n c0 "new" "old" r0).
  - intros Hdelim Ha Hrk.
    assert (Hold : realKey (S n) "old" c = Done (r, c))
      by (apply (realKey_mono n); [lia|done]).
    assert (Hnew : realKey (S n) "new" c = Done (r, c)).
    { apply realKey_Done. split; [|done]. simpl. rewrite Ha.
      by apply realKey_Done in Hrk as [? _]. }
    split.
    + apply (Set_then_Get cast (S n) c "new" "old" r v); try done.
      by rewrite Hdelim.
    + apply (Set_then_Get cast (S n) c "old" "new" r v); try done.
      by rewrite Hdelim.
Qed.

Lemma alias_transparency_witness :
  RegisterAlias 1 "new" "old" New = Done (tt, cNewOld) /\
  (exists c',
     Set_ 2 "new" (VString "v") cNewOld = Done (tt, c') /\
     Get refCast 2 "old" c' = Done (VString "v", c')) /\
  (exists c',
     Set_ 2 "old" (VString "v") cNewOld = Done (tt, c') /\
     Get refCast 2 "new" c' = Done (VString "v", c')).
Proof.
  destruct (alias_transparency refCast 1 New cNewOld "old" "old" (VString "v"))
    as [Hreg Hset].
  destruct Hreg as [Hreg _]; [reflexivity | reflexivity | discriminate |].
  destruct Hset as [(c1 & HS1 & _ & _ & _ & HG1) (c2 & HS2 & _ & _ & _ & HG2)];
    [reflexivity | reflexivity | reflexivity |].
  split; [exact Hreg|]. split.
  - exists c1. split; [exact HS1|].
    apply HG1; [apply refCast_laws | reflexivity | reflexivity].
  - exists c2. split; [exact HS2|].
    apply HG2; [apply refCast_laws | reflexivity | reflexivity].
Defined.

(** C9, as stated, fails: an [int32] set through ["new"] is read through
    ["old"] as an [int]. *)
Lemma alias_transparency_fails :
  ~ (forall (cast : Cast) (v : Value) (c1 c2 : Config),
       CastLaws cast ->
       RegisterAlias 1 "new" "old" New = Done (tt, c1) ->
       Set_ 2 "new" v c1 = Done (tt, c2) ->
       exists m, Get cast m "old" c2 = Done (v, c2)).
Proof.
  intros H.
  destruct (H refCast (VInt KInt32 5) cNewOld
              (with_overrides (fun m => <[ "old" := VInt KInt32 5 ]> m) cNewOld)
              refCast_laws eq_refl eq_refl) as [m Hm].
  assert (HG : Get refCast 2 "old"
                 (with_overrides (fun m => <[ "old" := VInt KInt32 5 ]> m) cNewOld)
               = Done (VInt KInt 5,
                       with_overrides (fun m => <[ "old" := VInt KInt32 5 ]> m)
                         cNewOld)) by reflexivity.
  pose proof (Get_functional _ _ _ _ _ _ _ Hm HG). discriminate.
Qed.

(** * Further properties of the engine *)

(** ** Canonical keys *)

(** X1.  What [realKey] returns is canonical: it is not an alias, and
    [realKey] maps it to itself. *)
Theorem realKey_canonical (n : nat) (key : string) (c : Config) (r : string) :
  realKey n key c = Done (r, c) ->
  aliases c !! r = None /\
  (forall m, 1 <= m -> realKey m r c = Done (r, c)).
Proof.
  intros H. apply realKey_Done in H as [H _].
  pose proof (resolve_fixed _ _ _ _ H) as Hr. split; [done|].
  intros m Hm. destruct m as [|m]; [lia|].
  apply realKey_Done. split; [by apply resolve_not_alias|done].
Qed.

Lemma realKey_canonical_witness :
  realKey 3 "a" cLost = Done ("c", cLost) /\
  realKey 1 "c" cLost = Done ("c", cLost).
Proof.
  assert (H : realKey 3 "a" cLost = Done ("c", cLost)) by reflexivity.
  split; [exact H|].
  destruct (realKey_canonical 3 "a" cLost "c" H) as [_ Hfix].
  apply Hfix. lia.
Defined.

(** ** The alias table only grows *)

Lemma mutation_aliases_cases c c' :
  mutation c c' ->
  aliases c' = aliases c \/
  exists alias key,
    aliases c !! alias = None /\ aliases c' = <[alias := key]> (aliases c).
Proof.
  intros Hm. destruct Hm as [n k v c c' H|n k v c c' H|n a k c c' H
                             |loaded c c' H].
  - left. by eapply Set_aliases.
  - left. by eapply SetDefault_aliases.
  - apply registerAlias_cases in H as [->|(-> & _ & Ha & _)]; [by left|].
    right. by exists (ToLower a), (ToLower k).
  - left. by eapply ReadInConfig_aliases.
Qed.

(** X2.  No exported mutator changes or removes an entry of the alias
    table: once [alias] stands for [target] it does so for good, and a
    later [RegisterAlias] of the same alias for another key is dropped. *)
Theorem alias_entry_permanent (c c' : Config) (alias target : string) :
  aliases c !! alias = Some target ->
  mutation c c' ->
  aliases c' !! alias = Some target.
Proof.
  intros Ha Hm.
  destruct (mutation_aliases_cases c c' Hm) as [->|(a & k & Hnone & ->)];
    [done|].
  rewrite lookup_insert_ne; [done|]. intros ->. congruence.
Qed.

Lemma alias_entry_permanent_witness :
  aliases cXY !! "x" = Some "y" /\
  RegisterAlias 1 "x" "z" cXY = Done (tt, cXY) /\
  aliases cXY !! "x" = Some "y".
Proof.
  assert (Ha : aliases cXY !! "x" = Some "y") by reflexivity.
  assert (Hr : RegisterAlias 1 "x" "z" cXY = Done (tt, cXY)) by reflexivity.
  split; [exact Ha|]. split; [exact Hr|].
  exact (alias_entry_permanent cXY cXY "x" "y" Ha
           (mut_RegisterAlias 1 "x" "z" cXY cXY Hr)).
Defined.

(** ** Lower case *)

Lemma lower_ascii_idem a : lower_ascii (lower_ascii a) = lower_ascii a.
Proof. by destruct a as [[] [] [] [] [] [] [] []]. Qed.

Lemma ToLower_idem s : ToLower (ToLower s) = ToLower s.
Proof.
  induction s as [|a r IH]; [done|]. simpl. by rewrite lower_ascii_idem, IH.
Qed.

Lemma lower_keys_New : lower_keys New.
Proof.
  split; [|split].
  - intros k [v Hv]. unfold New in Hv. simpl in Hv.
    by rewrite lookup_empty in Hv.
  - intros k [v Hv]. unfold New in Hv. simpl in Hv.
    by rewrite lookup_empty in Hv.
  - intros a t H. unfold New in H. simpl in H. by rewrite lookup_empty in H.
Qed.

(** A canonical key of a lower-case key is in lower case. *)
Lemma lower_keys_realKey n k c r :
  lower_keys c -> realKey n (ToLower k) c = Done (r, c) -> ToLower r = r.
Proof.
  intros (_ & _ & Hal) H. apply realKey_Done in H as [H _].
  apply resolve_origin in H as [->|[k' Hk']].
  - apply ToLower_idem.
  - by destruct (Hal _ _ Hk').
Qed.

Lemma migrated_lower alias key (m : gmap string Value) :
  ToLower key = key ->
  (forall k, is_Some (m !! k) -> ToLower k = k) ->
  forall k, is_Some (migrated alias key m !! k) -> ToLower k = k.
Proof.
  intros Hkey Hm k. unfold migrated.
  destruct (m !! alias) as [val|]; [|apply Hm].
  destruct (decide (key = k)) as [<-|Hne]; [done|].
  rewrite lookup_insert_ne by done. intros [v Hv].
  apply Hm. exists v.
  destruct (decide (alias = k)) as [->|Hne'].
  - by rewrite lookup_delete_eq in Hv.
  - by rewrite lookup_delete_ne in Hv.
Qed.

Lemma lower_keys_mutation c c' : lower_keys c -> mutation c c' -> lower_keys c'.
Proof.
  intros Hl Hm. destruct Hm as [n k v c c' H|n k v c c' H|n a k c c' H
                                |loaded c c' H].
  - unfold Set_ in H. apply bind_inv in H as (ck & c2 & Hrk & H).
    apply realKey_Done in Hrk as Hrk'. destruct Hrk' as [_ ->].
    injection H as <-.
    pose proof (lower_keys_realKey _ _ _ _ Hl Hrk) as Hck.
    destruct Hl as (Ho & Hd & Ha). split; [|by split].
    simpl. intros k0 Hk0. destruct (decide (ck = k0)) as [<-|Hne]; [done|].
    rewrite lookup_insert_ne in Hk0 by done. by apply Ho.
  - unfold SetDefault in H. apply bind_inv in H as (ck & c2 & Hrk & H).
    apply realKey_Done in Hrk as Hrk'. destruct Hrk' as [_ ->].
    injection H as <-.
    pose proof (lower_keys_realKey _ _ _ _ Hl Hrk) as Hck.
    destruct Hl as (Ho & Hd & Ha). split; [done|]. split; [|done].
    simpl. intros k0 Hk0. destruct (decide (ck = k0)) as [<-|Hne]; [done|].
    rewrite lookup_insert_ne in Hk0 by done. by apply Hd.
  - apply registerAlias_cases in H as [->|(-> & _ & _ & _)]; [done|].
    destruct Hl as (Ho & Hd & Ha). split; [|split]; simpl.
    + apply migrated_lower; [apply ToLower_idem|done].
    + apply migrated_lower; [apply ToLower_idem|done].
    + intros a0 t. destruct (decide (ToLower a = a0)) as [<-|Hne].
      * rewrite lookup_insert_eq. intros [= <-].
        split; apply ToLower_idem.
      * rewrite lookup_insert_ne by done. apply Ha.
  - destruct loaded; injection H as <-; [|done].
    destruct Hl as (Ho & Hd & Ha). by split.
Qed.

Lemma reachable_mutation c c' : reachable c -> mutation c c' -> reachable c'.
Proof.
  intros Hc Hm. destruct Hm as [n k v c c' H|n k v c c' H|n a k c c' H
                                |loaded c c' H].
  - by eapply reach_Set.
  - by eapply reach_SetDefault.
  - by eapply reach_RegisterAlias.
  - by eapply reach_ReadInConfig.
Qed.

(** X3.  On every reachable store the keys of [overrides] and of
    [defaults], the aliases and their targets are all in lower case. *)
Theorem reachable_lower_keys (c : Config) : reachable c -> lower_keys c.
Proof.
  induction 1 as [|c n k v c' _ IH H|c n k v c' _ IH H
                  |c n a k c' _ IH H|c loaded c' _ IH H].
  - apply lower_keys_New.
  - eapply lower_keys_mutation; [exact IH|by eapply mut_Set].
  - eapply lower_keys_mutation; [exact IH|by eapply mut_SetDefault].
  - eapply lower_keys_mutation; [exact IH|by eapply mut_RegisterAlias].
  - eapply lower_keys_mutation; [exact IH|by eapply mut_ReadInConfig].
Qed.

Lemma reachable_cLost : reachable cLost.
Proof.
  apply (reach_RegisterAlias
           (with_overrides (fun m => <[ "a" := VInt KInt 1 ]> m)
              (with_aliases (fun m => <[ "b" := "c" ]> m) New))
           2 "A" "B"); [|reflexivity].
  apply (reach_Set (with_aliases (fun m => <[ "b" := "c" ]> m) New)
           1 "A" (VInt KInt 1)); [|reflexivity].
  apply (reach_RegisterAlias New 1 "B" "C"); [apply reach_New|reflexivity].
Qed.

Lemma reachable_lower_keys_witness : reachable cLost /\ lower_keys cLost.
Proof.
  split; [exact reachable_cLost|].
  exact (reachable_lower_keys cLost reachable_cLost).
Defined.

(** ** Writing and reading back *)

(** X4.  A non-nil value written by [Set] under a key, dotted or not, is
    what [find] returns for every spelling of the key that differs in
    letter case only, and what [Get] returns through its type switch; with
    [typeByDefValue] off and a value of a native type [Get] returns the
    value itself. *)
Theorem Set_Get_roundtrip (cast : Cast) (n : nat) (c : Config)
    (k k' ck : string) (v : Value) :
  ToLower k' = ToLower k ->
  realKey n (ToLower k) c = Done (ck, c) ->
  v <> VNil ->
  exists c',
    Set_ n k v c = Done (tt, c') /\
    find cast n (ToLower k') c' = Done (v, c') /\
    Get cast n k' c'
    = Done (coerce cast (valTypeOf c' (ToLower k') v) v, c') /\
    (CastLaws cast -> typeByDefValue c = false -> native v = true ->
     Get cast n k' c' = Done (v, c')).
Proof.
  intros Hk Hrk Hv.
  exists (with_overrides (fun m => <[ck := v]> m) c).
  assert (Hf : find cast n (ToLower k')
                 (with_overrides (fun m => <[ck := v]> m) c)
               = Done (v, with_overrides (fun m => <[ck := v]> m) c)).
  { apply (find_override cast n _ _ ck v).
    - rewrite Hk. apply realKey_Done.
      by apply realKey_Done in Hrk as [? _].
    - simpl. apply lookup_insert_eq. }
  split; [by apply Set_spec|]. split; [done|]. split.
  - by apply Get_of_find.
  - intros L Hflag Hn. by apply Get_of_find_native.
Qed.

Lemma Set_Get_roundtrip_witness :
  Set_ 1 "Log.Level" (VString "debug") New = Done (tt, cLogLevel) /\
  Get refCast 1 "LOG.level" cLogLevel = Done (VString "debug", cLogLevel).
Proof.
  destruct (Set_Get_roundtrip refCast 1 New "Log.Level" "LOG.level"
              "log.level" (VString "debug"))
    as (c' & HS & _ & _ & HG); [reflexivity | reflexivity | discriminate |].
  assert (Hc : c' = cLogLevel).
  { assert (H : Set_ 1 "Log.Level" (VString "debug") New
                = Done (tt, cLogLevel)) by reflexivity.
    rewrite H in HS. by injection HS. }
  subst c'. split; [exact HS|].
  apply HG; [apply refCast_laws | reflexivity | reflexivity].
Defined.

(** X5.  [Set(k, nil)] on a lower-case key without delimiter keeps the
    config and defaults layers and hides them: [Get(k)] is nil and
    [IsSet(k)] is false afterwards, whatever those layers hold for the
    key. *)
Theorem Set_nil_masks (cast : Cast) (n : nat) (c : Config) (k ck : string) :
  ToLower k = k ->
  Split k (keyDelm c) = [k] ->
  realKey n k c = Done (ck, c) ->
  exists c',
    Set_ n k VNil c = Done (tt, c') /\
    config c' = config c /\
    defaults c' = defaults c /\
    Get cast n k c' = Done (VNil, c') /\
    IsSet cast n k c' = Done (false, c').
Proof.
  intros Hlow Hsplit Hrk.
  exists (with_overrides (fun m => <[ck := VNil]> m) c).
  assert (HG : Get cast n k (with_overrides (fun m => <[ck := VNil]> m) c)
               = Done (VNil, with_overrides (fun m => <[ck := VNil]> m) c)).
  { apply (Get_override_plain cast n k _ ck VNil); try done.
    - apply realKey_Done. by apply realKey_Done in Hrk as [? _].
    - simpl. apply lookup_insert_eq. }
  split; [apply Set_spec; by rewrite Hlow|].
  split; [done|]. split; [done|]. split; [done|].
  unfold IsSet. by rewrite (bind_Done _ _ _ _ _ HG).
Qed.

Lemma Set_nil_masks_witness :
  Get refCast 1 "port" cServer = Done (VInt KInt 9090, cServer) /\
  exists c',
    Set_ 1 "port" VNil cServer = Done (tt, c') /\
    defaults c' !! "port" = Some (VInt KInt 8080) /\
    config c' !! "port" = Some (VInt KInt 9090) /\
    IsSet refCast 1 "port" c' = Done (false, c').
Proof.
  split; [reflexivity|].
  destruct (Set_nil_masks refCast 1 cServer "port" "port")
    as (c' & HS & Hc & Hd & _ & HI); [reflexivity | reflexivity | reflexivity |].
  exists c'. split; [exact HS|].
  split; [by rewrite Hd|]. split; [by rewrite Hc|]. exact HI.
Defined.

(** ** Precedence below the overrides *)



(** X7.  When a dotted key is stored in neither overrides nor config and
    its first segment resolves to a map, [find] returns what the descent
    gives and never looks at defaults: when the map has no entry for the
    second segment, [find] is nil although defaults holds an entry for
    the key. *)
Theorem descent_hides_defaults (cast : Cast) (n : nat) (c : Config)
    (key ck p0 p1 : string) (rest : list string)
    (m : gmap string Value) (vd : Value) :
  CastLaws cast ->
  realKey n key c = Done (ck, c) ->
  overrides c !! ck = None ->
  config c !! ck = None ->
  defaults c !! ck = Some vd ->
  Contains ck (keyDelm c) = true ->
  Split ck (keyDelm c) = p0 :: p1 :: rest ->
  find cast n p0 c = Done (VStringMap m, c) ->
  m !! p1 = None ->
  find cast (S n) key c = Done (VNil, c).
Proof.
  intros L Hrk Ho Hc Hd Hdelim Hsplit Hsrc Hm.
  rewrite (find_descend cast n key c ck p0 (VStringMap m)); try done.
  - rewrite Hsplit, (ToStringMap_map _ L). simpl. by rewrite Hm.
  - by rewrite Hsplit.
Qed.

Lemma descent_hides_defaults_witness :
  defaults cServer !! "db.user" = Some (VString "admin") /\
  find refCast 2 "db.user" cServer = Done (VNil, cServer).
Proof.
  split; [reflexivity|].
  apply (descent_hides_defaults refCast 1 cServer "db.user" "db.user"
           "db" "user" [] {[ "host" := VString "pg" ]} (VString "admin"));
    [apply refCast_laws | reflexivity ..].
Defined.

(** ** More on [searchMap] *)

(** X8.  Once [searchMap] has returned, for a path, anything but a map
    (nil for a missing key, or a value that is not a nested map), it
    returns the same for every longer path: the segments that follow are
    never looked at. *)
Theorem searchMap_longer_path (cast : Cast) (s : gmap string Value)
    (p q : list string) (v : Value) (c : Config) :
  searchMap cast s p c = Done (v, c) ->
  isMapping v = false ->
  searchMap cast s (p ++ q) c = Done (v, c).
Proof.
  revert s. induction p as [|p0 rest IH]; intros s H Hv.
  - simpl in H. injection H as <-. discriminate.
  - simpl in *. destruct (s !! p0) as [next|]; [|done].
    destruct next; try done; by apply IH.
Qed.

Lemma searchMap_longer_path_witness :
  searchMap refCast mSettings ["db"; "port"] New = Done (VInt KInt 5432, New) /\
  searchMap refCast mSettings (["db"; "port"] ++ ["unit"; "name"]) New
  = Done (VInt KInt 5432, New).
Proof.
  assert (H : searchMap refCast mSettings ["db"; "port"] New
              = Done (VInt KInt 5432, New)) by reflexivity.
  split; [exact H|].
  exact (searchMap_longer_path refCast mSettings ["db"; "port"]
           ["unit"; "name"] (VInt KInt 5432) New H eq_refl).
Defined.



(** ** What [Get] hands back *)

Lemma coerce_self_native cast v : native (coerce cast v v) = true.
Proof. by destruct v as [| | |k z|k f| | | | | |]; try destruct k. Qed.

(** X10.  With [typeByDefValue] off, [Get] never returns an integer of a
    width other than [int] nor a [float32]: every value it returns has a
    native type. *)
Theorem Get_result_native (cast : Cast) (n : nat) (key : string)
    (c c' : Config) (v : Value) :
  typeByDefValue c = false ->
  Get cast n key c = Done (v, c') ->
  native v = true.
Proof.
  intros Hflag H.
  pose proof (preserves_Get cast n key) as Hp.
  pose proof (preserves_Done _ _ _ _ Hp H) as ->.
  unfold Get in H. rewrite bind_gets in H. cbv zeta in H.
  apply bind_inv in H as (val & c1 & Hval & H).
  pose proof (preserves_Done _ _ _ _ (preserves_find cast n _) Hval) as ->.
  apply bind_inv in H as (val' & c2 & Hval' & H).
  assert (c2 = c) as ->.
  { destruct (is_nil val).
    - apply bind_inv in Hval' as (p0 & c3 & Hp0 & Hval').
      pose proof (preserves_Done _ _ _ _ (preserves_index0 _) Hp0) as ->.
      apply bind_inv in Hval' as (src & c4 & Hsrc & Hval').
      pose proof (preserves_Done _ _ _ _ (preserves_find cast n _) Hsrc) as ->.
      destruct (negb (is_nil src) && kindIsMap src).
      + by apply (preserves_Done _ _ _ _ (preserves_searchMap cast _ _) Hval').
      + by injection Hval'.
    - by injection Hval'. }
  destruct (is_nil val'); [by injection H as <-|].
  rewrite (bind_Done _ _ _ _ _ (witness_valTypeOf _ _ _)) in H.
  injection H as <-. unfold valTypeOf. rewrite Hflag. simpl.
  apply coerce_self_native.
Qed.

Lemma Get_result_native_witness :
  Get refCast 1 "n" cNarrow = Done (VInt KInt 7, cNarrow) /\
  native (VInt KInt 7) = true.
Proof.
  assert (H : Get refCast 1 "n" cNarrow = Done (VInt KInt 7, cNarrow))
    by reflexivity.
  split; [exact H|].
  exact (Get_result_native refCast 1 "n" cNarrow cNarrow (VInt KInt 7)
           eq_refl H).
Defined.

(** X11.  When [find] on the lower-cased key gives a non-nil value,
    [Get] does not depend on the letter case of the key: two spellings
    with the same lower-case form read the same. *)
Theorem Get_case_insensitive_when_found (cast : Cast) (n : nat) (c : Config)
    (k k' : string) (v : Value) :
  ToLower k' = ToLower k ->
  find cast n (ToLower k) c = Done (v, c) ->
  v <> VNil ->
  Get cast n k' c = Get cast n k c.
Proof.
  intros Hk Hf Hv.
  rewrite (Get_of_find cast n k c v Hf Hv).
  rewrite <- Hk in Hf |- *. by apply Get_of_find.
Qed.

Lemma Get_case_insensitive_when_found_witness :
  Get refCast 2 "DB.host" cServer = Get refCast 2 "db.host" cServer /\
  Get refCast 2 "db.host" cServer = Done (VString "pg", cServer).
Proof.
  split; [|reflexivity].
  apply (Get_case_insensitive_when_found refCast 2 cServer "db.host"
           "DB.host" (VString "pg")); [reflexivity | reflexivity | discriminate].
Defined.

(** ** Keys that are not there *)



(** ** [AllKeys] and [AllSettings] *)

Lemma AllKeys_elements (c : Config) :
  AllKeys c
  = Done (elements (dom (defaults c) ∪ dom (config c) ∪ dom (overrides c)), c).
Proof. reflexivity. Qed.

Lemma elem_of_layer_keys (c : Config) k :
  k ∈ elements (dom (defaults c) ∪ dom (config c) ∪ dom (overrides c)) <->
  is_Some (overrides c !! k) \/ is_Some (config c !! k) \/
  is_Some (defaults c !! k).
Proof. rewrite elem_of_elements, !elem_of_union, !elem_of_dom. tauto. Qed.

(** X13.  [AllKeys] returns, without repetition, exactly the keys that
    have an entry in overrides, in config or in defaults, and leaves the
    store as it is. *)
Theorem AllKeys_exact_union (c : Config) :
  exists l,
    AllKeys c = Done (l, c) /\
    NoDup l /\
    forall k, k ∈ l <->
      is_Some (overrides c !! k) \/ is_Some (config c !! k) \/
      is_Some (defaults c !! k).
Proof.
  exists (elements (dom (defaults c) ∪ dom (config c) ∪ dom (overrides c))).
  split; [apply AllKeys_elements|]. split; [apply NoDup_elements|].
  apply elem_of_layer_keys.
Qed.

Section Settings.

Variable cast : Cast.

(** The loop writes, under each key of the list, what [Get] returns for
    it, and nothing else. *)
Lemma allSettingsLoop_spec n keys m0 c m c' :
  allSettingsLoop cast n keys m0 c = Done (m, c') ->
  c' = c /\
  forall x,
    (x ∈ keys -> exists v, Get cast n x c = Done (v, c) /\ m !! x = Some v) /\
    (x ∉ keys -> m !! x = m0 !! x).
Proof.
  revert m0. induction keys as [|y rest IH]; intros m0 H.
  - simpl in H. injection H as <- <-. split; [done|]. intros x.
    split; [by intros ?%elem_of_nil|done].
  - simpl in H. apply bind_inv in H as (v & c1 & HG & H).
    pose proof (preserves_Done _ _ _ _ (preserves_Get cast n y) HG) as ->.
    destruct (IH _ H) as [-> Hrest]. split; [done|]. intros x.
    destruct (Hrest x) as [Hin Hout]. split.
    + intros Hx. destruct (decide (x ∈ rest)) as [Hr|Hr]; [by apply Hin|].
      apply elem_of_cons in Hx as [->|Hx]; [|done].
      exists v. split; [done|]. rewrite (Hout Hr). apply lookup_insert_eq.
    + intros Hx. apply not_elem_of_cons in Hx as [Hne Hr].
      rewrite (Hout Hr). by rewrite lookup_insert_ne.
Qed.

End Settings.

(** X14.  When [AllSettings] returns a map, the store is untouched, the
    keys of the map are exactly the keys of the three layers, and each
    key is mapped to what [Get] returns for it (nil included). *)
Theorem AllSettings_spec (cast : Cast) (n : nat) (c c' : Config)
    (m : gmap string Value) :
  AllSettings cast n c = Done (m, c') ->
  c' = c /\
  (forall x, is_Some (m !! x) <->
     is_Some (overrides c !! x) \/ is_Some (config c !! x) \/
     is_Some (defaults c !! x)) /\
  (forall x v, m !! x = Some v -> Get cast n x c = Done (v, c)).
Proof.
  intros H. unfold AllSettings in H.
  rewrite (bind_Done _ _ _ _ _ (AllKeys_elements c)) in H.
  pose proof (elem_of_layer_keys c) as Hmem.
  set (l := elements (dom (defaults c) ∪ dom (config c) ∪ dom (overrides c)))
    in *.
  destruct (allSettingsLoop_spec cast _ _ _ _ _ _ H) as [-> Hspec].
  split; [done|]. split.
  - intros x. rewrite <- Hmem. destruct (Hspec x) as [Hin Hout]. split.
    + intros Hs. destruct (decide (x ∈ l)) as [|Hx]; [done|].
      rewrite (Hout Hx), lookup_empty in Hs. by destruct Hs.
    + intros Hx. destruct (Hin Hx) as (v & _ & ->). by eexists.
  - intros x v Hx. destruct (Hspec x) as [Hin Hout].
    destruct (decide (x ∈ l)) as [Hl'|Hl'].
    + destruct (Hin Hl') as (v' & HG & Hv'). congruence.
    + rewrite (Hout Hl'), lookup_empty in Hx. done.
Qed.

Lemma AllSettings_spec_witness :
  AllSettings refCast 2 cServer = Done (mServerSettings, cServer) /\
  Get refCast 2 "db.user" cServer = Done (VNil, cServer).
Proof.
  assert (E : AllSettings refCast 2 cServer = Done (mServerSettings, cServer))
    by (vm_compute; reflexivity).
  split; [exact E|].
  destruct (AllSettings_spec refCast 2 cServer cServer mServerSettings E)
    as (_ & _ & HG).
  apply HG. vm_compute. reflexivity.
Defined.

(** ** The typed accessors *)

(** X15.  With [typeByDefValue] off and a collaborator that gives a
    value of the target type back, a typed accessor returns the content
    of what [find] gives for the lower-cased key: [GetInt] the number of
    an integer of any width, [GetFloat64] that of a float of either
    width, [GetString], [GetBool], [GetTime], [GetDuration],
    [GetStringSlice] and [GetStringMap] the string, boolean, time,
    duration, slice and map that is stored. *)
Theorem typed_accessors_return_content (cast : Cast) (n : nat) (c : Config)
    (k : string) (v : Value) :
  CastLaws cast ->
  typeByDefValue c = false ->
  find cast n (ToLower k) c = Done (v, c) ->
  (forall w z, v = VInt w z -> GetInt cast n k c = Done (z, c)) /\
  (forall w f, v = VFloat w f -> GetFloat64 cast n k c = Done (f, c)) /\
  (forall s, v = VString s -> GetString cast n k c = Done (s, c)) /\
  (forall b, v = VBool b -> GetBool cast n k c = Done (b, c)) /\
  (forall t, v = VTime t -> GetTime cast n k c = Done (t, c)) /\
  (forall d, v = VDuration d -> GetDuration cast n k c = Done (d, c)) /\
  (forall l, v = VStringSlice l -> GetStringSlice cast n k c = Done (l, c)) /\
  (forall m, v = VStringMap m -> GetStringMap cast n k c = Done (m, c)).
Proof.
  intros L Hflag Hf.
  assert (HG : v <> VNil ->
               Get cast n k c = Done (coerce cast v v, c)).
  { intros Hv. rewrite (Get_of_find cast n k c v Hf Hv).
    unfold valTypeOf. by rewrite Hflag. }
  destruct L as [Lb Ls Li Lf Lt Ld Lsl Lm].
  repeat split; intros; subst v.
  - unfold GetInt. rewrite (bind_Done _ _ _ _ _ (HG ltac:(discriminate))).
    simpl. unfold ret. by rewrite !Li.
  - unfold GetFloat64. rewrite (bind_Done _ _ _ _ _ (HG ltac:(discriminate))).
    simpl. unfold ret. by rewrite !Lf.
  - unfold GetString. rewrite (bind_Done _ _ _ _ _ (HG ltac:(discriminate))).
    simpl. unfold ret. by rewrite !Ls.
  - unfold GetBool. rewrite (bind_Done _ _ _ _ _ (HG ltac:(discriminate))).
    simpl. unfold ret. by rewrite !Lb.
  - unfold GetTime. rewrite (bind_Done _ _ _ _ _ (HG ltac:(discriminate))).
    simpl. unfold ret. by rewrite !Lt.
  - unfold GetDuration. rewrite (bind_Done _ _ _ _ _ (HG ltac:(discriminate))).
    simpl. unfold ret. by rewrite !Ld.
  - unfold GetStringSlice.
    rewrite (bind_Done _ _ _ _ _ (HG ltac:(discriminate))).
    simpl. unfold ret. by rewrite !Lsl.
  - unfold GetStringMap.
    rewrite (bind_Done _ _ _ _ _ (HG ltac:(discriminate))).
    simpl. unfold ret. by rewrite !Lm.
Qed.

Lemma typed_accessors_return_content_witness :
  find refCast 1 (ToLower "Retries") cTyped = Done (VInt KInt16 3, cTyped) /\
  GetInt refCast 1 "Retries" cTyped = Done (3%Z, cTyped).
Proof.
  assert (Hf : find refCast 1 (ToLower "Retries") cTyped
               = Done (VInt KInt16 3, cTyped)) by reflexivity.
  split; [exact Hf|].
  destruct (typed_accessors_return_content refCast 1 cTyped "Retries"
              (VInt KInt16 3) refCast_laws eq_refl Hf) as (HI & _).
  exact (HI KInt16 3%Z eq_refl).
Defined.

(** ** Registration for a canonical key *)

(** X16.  When the key given to [registerAlias] is not itself an alias
    and the registration is accepted, an override stored under the alias
    is moved under the key, over whatever the key held, and [find]
    returns it under both names. *)
Theorem registerAlias_override_follows (cast : Cast) (c : Config)
    (alias key : string) (v : Value) :
  ToLower alias <> key ->
  aliases c !! key = None ->
  aliases c !! ToLower alias = None ->
  overrides c !! ToLower alias = Some v ->
  exists c',
    registerAlias 1 alias key c = Done (tt, c') /\
    overrides c' !! ToLower alias = None /\
    overrides c' !! key = Some v /\
    find cast 2 (ToLower alias) c' = Done (v, c') /\
    find cast 2 key c' = Done (v, c').
Proof.
  intros Hne Hkey Hal Ho.
  assert (Hrk : realKey 1 key c = Done (key, c))
    by (apply realKey_Done; split; [by apply resolve_not_alias|done]).
  exists (aliased (ToLower alias) key c).
  assert (Hov : overrides (aliased (ToLower alias) key c) !! key = Some v)
    by (simpl; by apply migrated_lookup_key).
  assert (Hk' : aliases (aliased (ToLower alias) key c) !! key = None)
    by (simpl; rewrite lookup_insert_ne; done).
  split; [apply (registerAlias_accepted 1 c alias key key); congruence|].
  split; [simpl; by apply migrated_lookup_alias|]. split; [done|].
  split.
  - apply (find_override cast 2 _ _ key v); [|done].
    apply realKey_Done. split; [|done]. simpl.
    rewrite lookup_insert_eq. rewrite lookup_insert_ne by done.
    by rewrite Hkey.
  - apply (find_override cast 2 _ _ key v); [|done].
    apply realKey_Done. split; [|done]. by apply resolve_not_alias.
Qed.

Lemma registerAlias_override_follows_witness :
  exists c',
    registerAlias 1 "A" "b" cOverA = Done (tt, c') /\
    find refCast 2 "a" c' = Done (VInt KInt 1, c') /\
    find refCast 2 "b" c' = Done (VInt KInt 1, c').
Proof.
  destruct (registerAlias_override_follows refCast cOverA "A" "b"
              (VInt KInt 1)) as (c' & HR & _ & _ & Ha & Hb);
    [discriminate | reflexivity | reflexivity | reflexivity |].
  exists c'. split; [exact HR|]. split; [exact Ha|exact Hb].
Defined.

(** ** Termination on reachable stores *)

Lemma plain_aliases_cLost : plain_aliases cLost.
Proof.
  intros a t H. unfold cLost in H. simpl in H.
  apply lookup_insert_Some in H as [[_ <-]|[_ H]]; [reflexivity|].
  apply lookup_singleton_Some in H as [_ <-]. reflexivity.
Qed.

Lemma reachable_realKey_returns_witness :
  exists N, forall key, exists r,
    realKey N key cLost = Done (r, cLost) /\ aliases cLost !! r = None.
Proof. exact (reachable_realKey_returns cLost reachable_cLost). Defined.

Lemma reachable_find_returns_witness :
  exists N, forall key, exists v, find refCast N key cLost = Done (v, cLost).
Proof.
  exact (reachable_find_returns refCast cLost reachable_cLost
           plain_aliases_cLost).
Defined.

(** ** A config key with an upper-case letter *)



(** * Locating the configuration file *)

Section Locating.

Variable w : Files.World.

Lemma nonEmpty_true s : Files.nonEmpty s = true <-> s <> "".
Proof. by destruct s. Qed.

Lemma nonEmpty_false s : Files.nonEmpty s = false <-> s = "".
Proof. by destruct s. Qed.

(** What [searchInPath] returns, unless it is empty, is the file of the
    first extension, in the order of the list, for which the file
    exists. *)
Lemma searchExts_first name dir exts f :
  Files.searchExts w name dir exts = f ->
  f <> "" ->
  exists eb ext ea,
    exts = (eb ++ ext :: ea)%list /\
    f = Files.Join w dir (name +:+ "." +:+ ext) /\
    Files.fileExists w f = true /\
    forall e, e ∈ eb ->
      Files.fileExists w (Files.Join w dir (name +:+ "." +:+ e)) = false.
Proof.
  induction exts as [|ext rest IH]; intros H Hf; [by subst f|].
  simpl in H.
  destruct (Files.fileExists w (Files.Join w dir (name +:+ "." +:+ ext)))
    eqn:E.
  - exists [], ext, rest. subst f. repeat split; [done|].
    by intros e ?%elem_of_nil.
  - destruct (IH H Hf) as (eb & ext' & ea & -> & Hf' & Hex & Hbefore).
    exists (ext :: eb), ext', ea. repeat split; try done.
    intros e [->|He]%elem_of_cons; [done|by apply Hbefore].
Qed.

Lemma searchPaths_first l paths f :
  Files.searchPaths w l paths = Some f ->
  f <> "" /\
  exists pb dir pa,
    paths = (pb ++ dir :: pa)%list /\
    Files.searchInPath w l dir = f /\
    forall d, d ∈ pb -> Files.searchInPath w l d = "".
Proof.
  induction paths as [|cp rest IH]; intros H; [done|]. simpl in H.
  destruct (Files.nonEmpty (Files.searchInPath w l cp)) eqn:E.
  - injection H as <-. split; [by apply nonEmpty_true|].
    exists [], cp, rest. repeat split. by intros d ?%elem_of_nil.
  - destruct (IH H) as (Hf & pb & dir & pa & -> & Hdir & Hbefore).
    split; [done|]. exists (cp :: pb), dir, pa. repeat split; try done.
    intros d [->|Hd]%elem_of_cons; [by apply nonEmpty_false|by apply Hbefore].
Qed.

Lemma searchPaths_none l paths :
  Files.searchPaths w l paths = None ->
  forall d, d ∈ paths -> Files.searchInPath w l d = "".
Proof.
  induction paths as [|cp rest IH]; intros H d Hd;
    [by apply elem_of_nil in Hd|].
  simpl in H.
  destruct (Files.nonEmpty (Files.searchInPath w l cp)) eqn:E; [done|].
  apply elem_of_cons in Hd as [->|Hd]; [by apply nonEmpty_false|by apply IH].
Qed.

Lemma searchExts_none name dir exts :
  (forall d f, f <> "" -> Files.Join w d f <> "") ->
  Files.searchExts w name dir exts = "" ->
  forall e, e ∈ exts ->
    Files.fileExists w (Files.Join w dir (name +:+ "." +:+ e)) = false.
Proof.
  intros HJ. induction exts as [|ext rest IH]; intros H e He;
    [by apply elem_of_nil in He|].
  simpl in H.
  destruct (Files.fileExists w (Files.Join w dir (name +:+ "." +:+ ext)))
    eqn:E.
  - exfalso. apply (HJ dir (name +:+ "." +:+ ext)); [|done].
    clear. induction name as [|a r IHn]; [done|]. discriminate.
  - apply elem_of_cons in He as [->|He]; [done|by apply IH].
Qed.

End Locating.

(** X20.  When [findConfigFile] returns a file, it is the file of the
    first search path, in the order the paths were added, that holds a
    file with the configured name and a supported extension, and in that
    path the one of the first such extension in [SupportedExts]; the file
    exists. *)
Theorem findConfigFile_first_match (w : Files.World) (l : Files.Locator)
    (f : string) :
  Files.findConfigFile w l = inl f ->
  f <> "" /\
  Files.fileExists w f = true /\
  exists pb dir pa eb ext ea,
    Files.configPaths l = (pb ++ dir :: pa)%list /\
    Files.SupportedExts l = (eb ++ ext :: ea)%list /\
    f = Files.Join w dir (Files.configName l +:+ "." +:+ ext) /\
    (forall e, e ∈ eb ->
       Files.fileExists w
         (Files.Join w dir (Files.configName l +:+ "." +:+ e)) = false) /\
    (forall d, d ∈ pb -> Files.searchInPath w l d = "").
Proof.
  unfold Files.findConfigFile. intros H.
  destruct (Files.searchPaths w l (Files.configPaths l)) as [f'|] eqn:E;
    [|done].
  injection H as ->.
  destruct (searchPaths_first w _ _ _ E) as (Hf & pb & dir & pa & Hp & Hdir & Hb).
  destruct (searchExts_first w _ _ _ _ Hdir Hf)
    as (eb & ext & ea & He & Hjoin & Hex & Hbefore).
  split; [done|]. split; [done|].
  by exists pb, dir, pa, eb, ext, ea.
Qed.

(** X21.  When [findConfigFile] fails, the error carries the configured
    name and the list of the search paths, and no search path holds a
    file with that name and a supported extension (a join of a directory
    and a non-empty file name being non-empty). *)
Theorem findConfigFile_not_found (w : Files.World) (l : Files.Locator)
    (err : Files.Error) :
  (forall d f, f <> "" -> Files.Join w d f <> "") ->
  Files.findConfigFile w l = inr err ->
  err = Files.ConfigFileNotFoundError (Files.configName l)
          (Files.formatPaths (Files.configPaths l)) /\
  forall d e, d ∈ Files.configPaths l -> e ∈ Files.SupportedExts l ->
    Files.fileExists w (Files.Join w d (Files.configName l +:+ "." +:+ e))
    = false.
Proof.
  intros HJ. unfold Files.findConfigFile. intros H.
  destruct (Files.searchPaths w l (Files.configPaths l)) as [f'|] eqn:E;
    [done|].
  injection H as <-. split; [done|]. intros d e Hd He.
  apply (searchExts_none w _ _ (Files.SupportedExts l)); [done| |done].
  by apply (searchPaths_none w l _ E).
Qed.

Lemma findConfigFile_first_match_witness :
  Files.findConfigFile wDisk lThreePaths = inl "/home/u/config.toml" /\
  Files.fileExists wDisk "/home/u/config.toml" = true.
Proof.
  assert (H : Files.findConfigFile wDisk lThreePaths
              = inl "/home/u/config.toml") by reflexivity.
  split; [exact H|].
  exact (proj1 (proj2 (findConfigFile_first_match wDisk lThreePaths _ H))).
Defined.

Lemma Join_wDisk_nonEmpty d f : f <> "" -> Files.Join wEmptyDisk d f <> "".
Proof.
  intros Hf. simpl. induction d as [|a r IH]; [|discriminate].
  simpl. discriminate.
Qed.

Lemma findConfigFile_not_found_witness :
  Files.findConfigFile wEmptyDisk lThreePaths
  = inr (Files.ConfigFileNotFoundError "config" "[/opt/app /home/u /etc/app]") /\
  Files.fileExists wEmptyDisk
    (Files.Join wEmptyDisk "/home/u" ("config" +:+ "." +:+ "yaml")) = false.
Proof.
  assert (H : Files.findConfigFile wEmptyDisk lThreePaths
              = inr (Files.ConfigFileNotFoundError "config"
                       "[/opt/app /home/u /etc/app]")) by reflexivity.
  split; [exact H|].
  destruct (findConfigFile_not_found wEmptyDisk lThreePaths _
              Join_wDisk_nonEmpty H) as [_ Hno].
  apply (Hno "/home/u" "yaml");
    [apply (bool_decide_unpack _); reflexivity
    |apply (bool_decide_unpack _); reflexivity].
Defined.

(** ** [getConfigFile] *)

Lemma with_configFile_same (l : Files.Locator) :
  Files.with_configFile (Files.configFile l) l = l.
Proof. by destruct l. Qed.

Lemma getConfigFile_known w n l :
  Files.configFile l <> "" ->
  Files.getConfigFile w (S n) l = Done (Files.configFile l, l).
Proof.
  intros H. simpl. by rewrite (proj2 (nonEmpty_true _) H).
Qed.

(** X22.  [getConfigFile] returns within two calls.  A file that was
    set or found before is returned as it is.  A file that is found is
    stored in [configFile], and from then on [getConfigFile] returns it
    without searching, whatever is on disk by then.  When nothing is
    found it returns the empty string and stores nothing. *)
Theorem getConfigFile_caches (w : Files.World) (n : nat) (l : Files.Locator) :
  2 <= n ->
  exists f l',
    Files.getConfigFile w n l = Done (f, l') /\
    (Files.configFile l <> "" -> f = Files.configFile l /\ l' = l) /\
    (Files.configFile l = "" -> f <> "" -> Files.findConfigFile w l = inl f) /\
    (f <> "" ->
     l' = Files.with_configFile f l /\
     forall w' m, 1 <= m -> Files.getConfigFile w' m l' = Done (f, l')) /\
    (f = "" -> l' = l).
Proof.
  intros Hn. destruct n as [|[|n]]; [lia|lia|].
  destruct (decide (Files.configFile l = "")) as [He|Hne].
  - destruct (Files.findConfigFile w l) as [cf|err] eqn:Ef.
    + assert (Hcf : cf <> "").
      { unfold Files.findConfigFile in Ef.
        destruct (Files.searchPaths w l (Files.configPaths l)) eqn:Es; [|done].
        injection Ef as ->. by destruct (searchPaths_first w _ _ _ Es). }
      exists cf, (Files.with_configFile cf l).
      assert (Hrun : Files.getConfigFile w (S (S n)) l
                     = Done (cf, Files.with_configFile cf l)).
      { change (Files.getConfigFile w (S (S n)) l)
          with (if Files.nonEmpty (Files.configFile l)
                then Done (Files.configFile l, l)
                else match Files.findConfigFile w l with
                     | inr _ => Done ("", l)
                     | inl cf => Files.getConfigFile w (S n)
                                   (Files.with_configFile cf l)
                     end).
        rewrite (proj2 (nonEmpty_false _) He), Ef.
        by rewrite (getConfigFile_known w n (Files.with_configFile cf l)). }
      split; [done|]. split; [done|]. split; [done|]. split; [|done].
      intros _. split; [done|]. intros w' m Hm.
      destruct m as [|m]; [lia|].
      by rewrite (getConfigFile_known w' m (Files.with_configFile cf l)).
    + exists "", l.
      assert (Hrun : Files.getConfigFile w (S (S n)) l = Done ("", l)).
      { change (Files.getConfigFile w (S (S n)) l)
          with (if Files.nonEmpty (Files.configFile l)
                then Done (Files.configFile l, l)
                else match Files.findConfigFile w l with
                     | inr _ => Done ("", l)
                     | inl cf => Files.getConfigFile w (S n)
                                   (Files.with_configFile cf l)
                     end).
        by rewrite (proj2 (nonEmpty_false _) He), Ef. }
      split; [done|]. split; [done|]. split; [done|]. split; done.
  - exists (Files.configFile l), l.
    split; [by apply getConfigFile_known|]. split; [done|].
    split; [done|]. split; [|done].
    intros _. split; [by rewrite with_configFile_same|].
    intros w' m Hm. destruct m as [|m]; [lia|]. by apply getConfigFile_known.
Qed.

Lemma getConfigFile_caches_witness :
  exists l',
    Files.getConfigFile wDisk 2 lThreePaths = Done ("/home/u/config.toml", l') /\
    Files.ConfigFileUsed l' = "/home/u/config.toml" /\
    Files.getConfigFile wEmptyDisk 1 l' = Done ("/home/u/config.toml", l').
Proof.
  destruct (getConfigFile_caches wDisk 2 lThreePaths) as
    (f & l' & Hrun & _ & _ & Hfound & _); [lia|].
  assert (Hf : f = "/home/u/config.toml").
  { assert (H : Files.getConfigFile wDisk 2 lThreePaths
                = Done ("/home/u/config.toml",
                        Files.with_configFile "/home/u/config.toml" lThreePaths))
      by reflexivity.
    rewrite H in Hrun. by injection Hrun. }
  subst f. destruct Hfound as [-> Hsticky]; [discriminate|].
  exists (Files.with_configFile "/home/u/config.toml" lThreePaths).
  split; [exact Hrun|]. split; [reflexivity|].
  apply Hsticky. lia.
Defined.

(** ** [getConfigType] and [filepath.Ext] *)

Lemma list_ascii_of_string_app s1 s2 :
  list_ascii_of_string (s1 +:+ s2)
  = (list_ascii_of_string s1 ++ list_ascii_of_string s2)%list.
Proof. induction s1 as [|a r IH]; [done|]. simpl. by rewrite IH. Qed.

Lemma string_of_list_ascii_snoc x a acc :
  string_of_list_ascii (x ++ [a]) +:+ acc
  = string_of_list_ascii x +:+ String a acc.
Proof.
  induction x as [|b x IH]; [done|].
  change (String b (string_of_list_ascii (x ++ [a]) +:+ acc)
          = String b (string_of_list_ascii x +:+ String a acc)).
  by rewrite IH.
Qed.

Lemma append_empty_r s : s +:+ "" = s.
Proof.
  induction s as [|a r IH]; [done|].
  change (String a (r +:+ "") = String a r). by rewrite IH.
Qed.

Lemma extScan_through l before acc :
  forallb (fun a => negb (Ascii.eqb a "/") && negb (Ascii.eqb a ".")) l = true ->
  Files.extScan (l ++ "."%char :: before) acc
  = String "." (string_of_list_ascii (rev l) +:+ acc).
Proof.
  revert acc. induction l as [|a l IH]; intros acc H; [done|].
  simpl in H. apply andb_true_iff in H as [Ha Hl].
  apply andb_true_iff in Ha as [Hs Hd].
  apply negb_true_iff in Hs, Hd.
  change ((a :: l) ++ "."%char :: before)%list
    with (a :: (l ++ "."%char :: before))%list.
  change (Files.extScan (a :: (l ++ "."%char :: before)) acc)
    with (if Ascii.eqb a "/" then ""
          else if Ascii.eqb a "." then String a acc
          else Files.extScan (l ++ "."%char :: before) (String a acc)).
  rewrite Hs, Hd, (IH _ Hl). simpl rev.
  by rewrite string_of_list_ascii_snoc.
Qed.

Lemma extScan_no_dot l acc :
  forallb (fun a => negb (Ascii.eqb a ".")) l = true ->
  Files.extScan l acc = "".
Proof.
  revert acc. induction l as [|a l IH]; intros acc H; [done|].
  simpl in H. apply andb_true_iff in H as [Ha Hl].
  apply negb_true_iff in Ha. simpl. rewrite Ha.
  destruct (Ascii.eqb a "/"); [done|by apply IH].
Qed.

Lemma forallb_rev {A : Type} (f : A -> bool) (l : list A) :
  forallb f l = true -> forallb f (rev l) = true.
Proof.
  rewrite !forallb_forall. intros H x Hx. apply H. by apply in_rev.
Qed.

(** [filepath.Ext] of a name that ends in a dot and an extension proper
    is the dot and the extension. *)
Lemma Ext_extension base e :
  plainExt e = true -> Files.Ext (base +:+ "." +:+ e) = String "." e.
Proof.
  intros He. unfold Files.Ext.
  rewrite list_ascii_of_string_app. simpl list_ascii_of_string.
  rewrite rev_app_distr. simpl rev. rewrite <- app_assoc. simpl app.
  rewrite extScan_through; [|by apply forallb_rev].
  by rewrite rev_involutive, string_of_list_ascii_of_string, append_empty_r.
Qed.

Lemma Ext_no_dot path : noDot path = true -> Files.Ext path = "".
Proof.
  intros H. unfold Files.Ext. apply extScan_no_dot. by apply forallb_rev.
Qed.

Lemma append_dot_nonEmpty base e : base +:+ "." +:+ e <> "".
Proof. by destruct base. Qed.

(** X23.  A configuration type that was set is what [getConfigType]
    returns, without a look at the file.  Otherwise the type is read off
    the file name: a name that ends in a dot and an extension gives the
    extension (nothing when the name ends in the dot), and a name
    without a dot gives the empty type. *)
Theorem getConfigType_from_name (w : Files.World) (n : nat)
    (l : Files.Locator) :
  (Files.configType l <> "" ->
   forall m, Files.getConfigType w m l = Done (Files.configType l, l)) /\
  (Files.configType l = "" ->
   forall base e,
     Files.configFile l = base +:+ "." +:+ e -> plainExt e = true ->
     Files.getConfigType w (S n) l = Done (e, l)) /\
  (Files.configType l = "" -> Files.configFile l <> "" ->
   noDot (Files.configFile l) = true ->
   Files.getConfigType w (S n) l = Done ("", l)).
Proof.
  split; [|split].
  - intros Ht m. unfold Files.getConfigType.
    by rewrite (proj2 (nonEmpty_true _) Ht).
  - intros Ht base e Hf He. unfold Files.getConfigType.
    rewrite (proj2 (nonEmpty_false _) Ht).
    rewrite getConfigFile_known; [|rewrite Hf; apply append_dot_nonEmpty].
    rewrite Hf, (Ext_extension _ _ He). by destruct e.
  - intros Ht Hf Hno. unfold Files.getConfigType.
    rewrite (proj2 (nonEmpty_false _) Ht).
    rewrite getConfigFile_known by done.
    by rewrite (Ext_no_dot _ Hno).
Qed.

Lemma getConfigType_from_name_witness :
  Files.getConfigType wDisk 1
    (Files.SetConfigFile "/srv/app.d/settings.prod.yaml" Files.NewLocator)
  = Done ("yaml",
          Files.SetConfigFile "/srv/app.d/settings.prod.yaml" Files.NewLocator) /\
  Files.getConfigType wDisk 1
    (Files.SetConfigFile "/srv/settings" Files.NewLocator)
  = Done ("", Files.SetConfigFile "/srv/settings" Files.NewLocator).
Proof.
  split.
  - destruct (getConfigType_from_name wDisk 0
                (Files.SetConfigFile "/srv/app.d/settings.prod.yaml"
                   Files.NewLocator)) as (_ & H & _).
    apply (H eq_refl "/srv/app.d/settings.prod" "yaml"); reflexivity.
  - destruct (getConfigType_from_name wDisk 0
                (Files.SetConfigFile "/srv/settings" Files.NewLocator))
      as (_ & _ & H).
    apply H; [reflexivity | discriminate | reflexivity].
Defined.

(** ** [ReadInConfig] *)

Section Reading.

Variable w : Files.World.

(** A second call of [getConfigFile] returns what the first returned
    and changes nothing. *)
Lemma getConfigFile_again n l f l1 :
  Files.getConfigFile w n l = Done (f, l1) ->
  Files.getConfigFile w n l1 = Done (f, l1).
Proof.
  destruct n as [|n]; [done|]. intros H.
  change (Files.getConfigFile w (S n) l)
    with (if Files.nonEmpty (Files.configFile l)
          then Done (Files.configFile l, l)
          else match Files.findConfigFile w l with
               | inr _ => Done ("", l)
               | inl cf => Files.getConfigFile w n (Files.with_configFile cf l)
               end) in H.
  destruct (Files.nonEmpty (Files.configFile l)) eqn:E.
  - injection H as <- <-. apply getConfigFile_known. by apply nonEmpty_true.
  - destruct (Files.findConfigFile w l) as [cf|err] eqn:Ef.
    + assert (Hcf : cf <> "").
      { unfold Files.findConfigFile in Ef.
        destruct (Files.searchPaths w l (Files.configPaths l)) eqn:Es; [|done].
        injection Ef as ->. by destruct (searchPaths_first w _ _ _ Es). }
      destruct n as [|n]; [done|].
      rewrite (getConfigFile_known w n (Files.with_configFile cf l)) in H
        by done.
      injection H as <- <-.
      by rewrite (getConfigFile_known w (S n) (Files.with_configFile cf l)).
    + injection H as <- <-.
      change (Files.getConfigFile w (S n) l)
        with (if Files.nonEmpty (Files.configFile l)
              then Done (Files.configFile l, l)
              else match Files.findConfigFile w l with
                   | inr _ => Done ("", l)
                   | inl cf => Files.getConfigFile w n
                                 (Files.with_configFile cf l)
                   end).
      by rewrite E, Ef.
Qed.

(** [getConfigFile] changes the [configFile] field only. *)
Lemma getConfigFile_fields n l f l1 :
  Files.getConfigFile w n l = Done (f, l1) ->
  Files.configType l1 = Files.configType l /\
  Files.SupportedExts l1 = Files.SupportedExts l.
Proof.
  revert l. induction n as [|n IH]; intros l H; [done|].
  change (Files.getConfigFile w (S n) l)
    with (if Files.nonEmpty (Files.configFile l)
          then Done (Files.configFile l, l)
          else match Files.findConfigFile w l with
               | inr _ => Done ("", l)
               | inl cf => Files.getConfigFile w n (Files.with_configFile cf l)
               end) in H.
  destruct (Files.nonEmpty (Files.configFile l)); [by injection H as <- <-|].
  destruct (Files.findConfigFile w l) as [cf|err];
    [|by injection H as <- <-].
  by destruct (IH _ H).
Qed.

Lemma getConfigType_again n l t l1 :
  Files.getConfigType w n l = Done (t, l1) ->
  Files.getConfigType w n l1 = Done (t, l1).
Proof.
  unfold Files.getConfigType. intros H.
  destruct (Files.nonEmpty (Files.configType l)) eqn:E.
  - injection H as <- <-. by rewrite E.
  - destruct (Files.getConfigFile w n l) as [[cf l']| |] eqn:Ef; [|done|done].
    destruct (getConfigFile_fields _ _ _ _ Ef) as [Ht _].
    assert (l' = l1) as ->
      by (destruct (1 <? String.length (Files.Ext cf))%nat; by injection H).
    rewrite Ht, E, (getConfigFile_again _ _ _ _ Ef). exact H.
Qed.

(** What [getConfigFile] returns is what [configFile] holds afterwards. *)
Lemma getConfigFile_configFile n l f l1 :
  Files.getConfigFile w n l = Done (f, l1) -> Files.configFile l1 = f.
Proof.
  revert l. induction n as [|n IH]; intros l H; [done|].
  change (Files.getConfigFile w (S n) l)
    with (if Files.nonEmpty (Files.configFile l)
          then Done (Files.configFile l, l)
          else match Files.findConfigFile w l with
               | inr _ => Done ("", l)
               | inl cf => Files.getConfigFile w n (Files.with_configFile cf l)
               end) in H.
  destruct (Files.nonEmpty (Files.configFile l)) eqn:E;
    [by injection H as <- <-|].
  destruct (Files.findConfigFile w l) as [cf|err]; [by apply (IH _ H)|].
  injection H as <- <-. by apply nonEmpty_false.
Qed.

(** After [getConfigFile], [getConfigType] changes nothing. *)
Lemma getConfigType_after_file n l f l2 t l3 :
  Files.getConfigFile w n l = Done (f, l2) ->
  Files.getConfigType w n l2 = Done (t, l3) ->
  l3 = l2.
Proof.
  intros Hf H. unfold Files.getConfigType in H.
  destruct (Files.nonEmpty (Files.configType l2)); [by injection H|].
  rewrite (getConfigFile_again _ _ _ _ Hf) in H.
  destruct (1 <? String.length (Files.Ext f))%nat; by injection H.
Qed.

Lemma getConfigType_fields n l t l1 :
  Files.getConfigType w n l = Done (t, l1) ->
  Files.SupportedExts l1 = Files.SupportedExts l.
Proof.
  unfold Files.getConfigType. intros H.
  destruct (Files.nonEmpty (Files.configType l)); [by injection H as <- <-|].
  destruct (Files.getConfigFile w n l) as [[cf l']| |] eqn:Ef; [|done|done].
  destruct (getConfigFile_fields _ _ _ _ Ef) as [_ He].
  destruct (1 <? String.length (Files.Ext cf))%nat; by injection H as <- <-.
Qed.

End Reading.

(** X24.  When the configuration type is not among [SupportedExts],
    [ReadInConfig] returns [UnsupportedConfigError] with that type and
    leaves the whole store, config layer included, as it was. *)
Theorem ReadInConfig_unsupported (w : Files.World) (n : nat)
    (l l1 : Files.Locator) (c : Config) (t : string) :
  Files.getConfigType w n l = Done (t, l1) ->
  Files.stringInSlice w t (Files.SupportedExts l) = false ->
  Files.ReadInConfig w n l c
  = Done (Some (Files.UnsupportedConfigError t), l1, c).
Proof.
  intros Ht Hno. unfold Files.ReadInConfig. rewrite Ht.
  rewrite (getConfigType_fields w _ _ _ _ Ht), Hno. simpl negb.
  by rewrite (getConfigType_again w _ _ _ _ Ht).
Qed.

Lemma ReadInConfig_unsupported_witness :
  Files.ReadInConfig wDisk 2 (Files.SetConfigType "json" lThreePaths) cServer
  = Done (Some (Files.UnsupportedConfigError "json"),
          Files.SetConfigType "json" lThreePaths, cServer).
Proof.
  apply ReadInConfig_unsupported; [reflexivity|].
  apply bool_decide_eq_false. intros H.
  repeat (apply elem_of_cons in H as [H|H]; [discriminate H|]).
  by apply elem_of_nil in H.
Defined.

(** X25.  Whatever [ReadInConfig] returns, it leaves overrides, defaults
    and the alias table alone.  Either it returns an error and the
    config layer is what it was, or the file was read and the config
    layer is exactly what the decoder produced from it: nothing of the
    previous config layer is kept.  In both cases the store is one that
    the store-level [ReadInConfig] gives. *)
Theorem ReadInConfig_effect (w : Files.World) (n : nat)
    (l l' : Files.Locator) (c c' : Config) (e : option Files.Error) :
  Files.ReadInConfig w n l c = Done (e, l', c') ->
  overrides c' = overrides c /\
  defaults c' = defaults c /\
  aliases c' = aliases c /\
  ((e <> None /\ c' = c) \/
   (exists file t,
      Files.ReadFile w (Files.configFile l') = inr file /\
      Files.unmarshallConfigReader w file t = (config c', e))) /\
  (exists loaded, ReadInConfig loaded c = Done (tt, c')).
Proof.
  unfold Files.ReadInConfig. intros H.
  destruct (Files.getConfigType w n l) as [[t l1]| |] eqn:Et; [|done|done].
  destruct (negb (Files.stringInSlice w t (Files.SupportedExts l1))).
  { destruct (Files.getConfigType w n l1) as [[t' l2]| |]; [|done|done].
    injection H as <- <- <-. repeat split; try done.
    - left. by split.
    - by exists None. }
  destruct (Files.getConfigFile w n l1) as [[f l2]| |] eqn:Ef; [|done|done].
  destruct (Files.ReadFile w f) as [err|file] eqn:Er.
  { injection H as <- <- <-. repeat split; try done.
    - left. by split.
    - by exists None. }
  destruct (Files.getConfigType w n l2) as [[t2 l3]| |] eqn:Et2; [|done|done].
  destruct (Files.unmarshallConfigReader w file t2) as [entries err] eqn:Eu.
  injection H as <- <- <-. repeat split; try done.
  - right. exists file, t2. split; [|done].
    rewrite (getConfigType_after_file w _ _ _ _ _ _ Ef Et2).
    by rewrite (getConfigFile_configFile w _ _ _ _ Ef).
  - by exists (Some entries).
Qed.

Lemma ReadInConfig_effect_witness :
  exists l' c',
    Files.ReadInConfig wDisk 2 lThreePaths cServer = Done (None, l', c') /\
    config cServer !! "db" = Some (VStringMap {[ "host" := VString "pg" ]}) /\
    config c' !! "db" = None /\
    config c' !! "port" = Some (VInt KInt 9090) /\
    defaults c' = defaults cServer.
Proof.
  destruct (Files.ReadInConfig wDisk 2 lThreePaths cServer)
    as [[[e l'] c']| |] eqn:E; [|discriminate E|discriminate E].
  destruct (ReadInConfig_effect wDisk 2 lThreePaths l' cServer c' e E)
    as (_ & Hd & _ & _ & _).
  assert (E' : Files.ReadInConfig wDisk 2 lThreePaths cServer
               = Done (None,
                       Files.with_configFile "/home/u/config.toml" lThreePaths,
                       with_config (fun _ => {[ "port" := VInt KInt 9090 ]})
                         cServer)) by reflexivity.
  rewrite E' in E. injection E as <- <- <-.
  eexists _, _. split; [reflexivity|].
  split; [reflexivity|]. split; [reflexivity|]. split; [reflexivity|].
  exact Hd.
Defined.

(** ** [AddConfigPath] *)

Lemma configPaths_with_configPaths p l :
  Files.configPaths (Files.with_configPaths p l) = p.
Proof. reflexivity. Qed.

(** X26.  With a [stringInSlice] that tells whether the string is in the
    slice: [AddConfigPath] keeps the search paths free of repetition, adds
    a new path behind the ones already there (which so keep their rank in
    the search), adds nothing for the empty string or for a path that is
    there already, and doing it twice is doing it once. *)
Theorem AddConfigPath_paths (w : Files.World) (s : string)
    (l : Files.Locator) :
  (forall x ps, Files.stringInSlice w x ps = true <-> x ∈ ps) ->
  NoDup (Files.configPaths l) ->
  NoDup (Files.configPaths (Files.AddConfigPath w s l)) /\
  (Files.configPaths (Files.AddConfigPath w s l) = Files.configPaths l \/
   Files.configPaths (Files.AddConfigPath w s l)
   = (Files.configPaths l ++ [Files.absPathify w s])%list) /\
  (s = "" -> Files.AddConfigPath w s l = l) /\
  (s <> "" ->
   Files.absPathify w s ∈ Files.configPaths (Files.AddConfigPath w s l)) /\
  Files.AddConfigPath w s (Files.AddConfigPath w s l)
  = Files.AddConfigPath w s l.
Proof.
  intros Hin Hnd. unfold Files.AddConfigPath.
  destruct (Files.nonEmpty s) eqn:Es.
  - destruct (Files.stringInSlice w (Files.absPathify w s)
                (Files.configPaths l)) eqn:Ei; simpl negb; cbv iota.
    + apply Hin in Ei as Hmem.
      split; [done|]. split; [by left|].
      split; [intros ->; discriminate|]. split; [done|].
      by rewrite Ei.
    + assert (Hnot : Files.absPathify w s ∉ Files.configPaths l).
      { intros Hmem. apply Hin in Hmem. congruence. }
      rewrite !configPaths_with_configPaths.
      split.
      { apply NoDup_app. split; [done|]. split.
        - intros x Hx ->%list_elem_of_singleton. done.
        - apply NoDup_singleton. }
      split; [by right|]. split; [intros ->; discriminate|].
      split;
        [intros _; apply elem_of_app; right; by apply list_elem_of_singleton|].
      assert (Hnow : Files.stringInSlice w (Files.absPathify w s)
                       (Files.configPaths l ++ [Files.absPathify w s]) = true).
      { apply Hin. apply elem_of_app. right. by apply list_elem_of_singleton. }
      by rewrite Hnow.
  - split; [done|]. split; [by left|]. split; [done|].
    split; [intros Hs; by apply nonEmpty_true in Hs; congruence|done].
Qed.

Lemma stringInSlice_wDisk x ps :
  Files.stringInSlice wDisk x ps = true <-> x ∈ ps.
Proof. simpl. apply bool_decide_eq_true. Qed.

Lemma AddConfigPath_paths_witness :
  NoDup (Files.configPaths (Files.AddConfigPath wDisk "/home/u" lThreePaths)) /\
  Files.AddConfigPath wDisk "/home/u" lThreePaths = lThreePaths /\
  Files.configPaths (Files.AddConfigPath wDisk "/srv" lThreePaths)
  = ["/opt/app"; "/home/u"; "/etc/app"; "/srv"].
Proof.
  assert (Hnd : NoDup (Files.configPaths lThreePaths)).
  { apply (bool_decide_unpack _). reflexivity. }
  destruct (AddConfigPath_paths wDisk "/home/u" lThreePaths
              stringInSlice_wDisk Hnd) as (H & _).
  split; [exact H|]. split; reflexivity.
Defined.
